(** * A verified model of the extended binary search tree program (bst_ext.c)

    The C program keeps a tree of [struct Node { int key; Node *left, *right; }]
    reachable from one root pointer.  Ownership is tree shaped (no node is
    reachable along two paths), so a heap of nodes is represented by the
    inductive tree it unfolds to: a pointer to a node is the subtree rooted
    there, [NULL] is the empty tree, and an assignment to [root->left] builds
    the node again with the new child.  Where the C code keeps a pointer
    *into* the tree and later writes through it (the iterative insert), the
    pointer is the path from the root and the write is an update at that path.

    Keys are mathematical integers; that a key is a value of type [int] is
    the predicate [is_int], stated where it matters (printing and reading
    back).  The statistics are computed in [int] arithmetic.  A traversal is
    the list of the keys it prints.  Files are character streams.  Not
    modelled: a failing [malloc] (the program exits), the release of memory
    by [free] and [free_tree], and the prompts of the menu. *)

From stdpp Require Import base decidable option list sets gmap sorting.
From Stdlib Require Import ZArith Ascii Lia Sorted.
From Stdlib Require DecimalFacts DecimalPos DecimalZ.

Local Open Scope Z_scope.
#[local] Set Warnings "-clear-no-such-hyp".

(** ** Machine integers *)

(** [int] is 32 bits wide, two's complement. *)
Definition INT_MIN : Z := - 2 ^ 31.
Definition INT_MAX : Z := 2 ^ 31 - 1.
Definition LONG_MIN : Z := - 2 ^ 63.
Definition LONG_MAX : Z := 2 ^ 63 - 1.

Definition is_int (z : Z) : Prop := INT_MIN ≤ z ≤ INT_MAX.

#[global] Instance is_int_dec z : Decision (is_int z).
Proof. unfold is_int. apply _. Defined.

(** Reduction of a mathematical integer to the [int] with the same low 32
    bits: what a conversion to [int] and, on the usual targets, an [int]
    addition that leaves the range produce. *)
Definition int_wrap (z : Z) : Z := (z + 2 ^ 31) `mod` 2 ^ 32 - 2 ^ 31.

Definition int_add (a b : Z) : Z := int_wrap (a + b).

(** ** The node model *)

Inductive tree : Type :=
| NULL : tree
| Node (key : Z) (left right : tree) : tree.

#[global] Instance tree_eq_dec : EqDecision tree.
Proof. solve_decision. Defined.

Definition newNode (key : Z) : tree := Node key NULL NULL.

(** [p->key] for a node pointer that may be [NULL]. *)
Definition node_key (p : tree) : option Z :=
  match p with
  | NULL => None
  | Node k _ _ => Some k
  end.

(** ** Mutation engine *)

Fixpoint insert_recursive (root : tree) (key : Z) : tree :=
  match root with
  | NULL => newNode key
  | Node k l r =>
      if decide (key < k) then Node k (insert_recursive l key) r
      else if decide (key > k) then Node k l (insert_recursive r key)
      else root
  end.

(** Pointers into a tree, for the iterative insert: the path of child links
    from the root. *)
Inductive dir : Type := GoLeft | GoRight.

Definition ptr : Type := list dir.

Fixpoint deref (root : tree) (p : ptr) : tree :=
  match p, root with
  | [], _ => root
  | _ :: _, NULL => NULL
  | GoLeft :: p', Node _ l _ => deref l p'
  | GoRight :: p', Node _ _ r => deref r p'
  end.

(** [store_at root p f]: the tree after the node that [p] points to has been
    replaced by [f] of it. *)
Fixpoint store_at (root : tree) (p : ptr) (f : tree → tree) : tree :=
  match p, root with
  | [], _ => f root
  | _ :: _, NULL => NULL
  | GoLeft :: p', Node k l r => Node k (store_at l p' f) r
  | GoRight :: p', Node k l r => Node k l (store_at r p' f)
  end.

(** [parent->left = n] and [parent->right = n]. *)
Definition set_left (n : tree) (parent : tree) : tree :=
  match parent with
  | NULL => NULL
  | Node k _ r => Node k n r
  end.

Definition set_right (n : tree) (parent : tree) : tree :=
  match parent with
  | NULL => NULL
  | Node k l _ => Node k l n
  end.

(** The [while (cur)] loop of [insert_iterative].  [cur] is the subtree the
    pointer [curp] designates; the loop ends either on a duplicate ([None],
    the function then returns [root] as it is) or with [cur == NULL], and then
    yields the last value of [parent]. *)
Fixpoint insert_walk (cur : tree) (curp : ptr) (parent : option ptr) (key : Z)
  : option (option ptr) :=
  match cur with
  | NULL => Some parent
  | Node k l r =>
      let parent := Some curp in
      if decide (key < k) then insert_walk l (curp ++ [GoLeft]) parent key
      else if decide (key > k) then insert_walk r (curp ++ [GoRight]) parent key
      else None
  end.

(** The part of [insert_iterative] after its loop, as a function of the
    loop's outcome. *)
Definition insert_finish (root : tree) (key : Z) (w : option (option ptr)) : tree :=
  match w with
  | None => root
  | Some None => root
  | Some (Some parent) =>
      match node_key (deref root parent) with
      | None => root
      | Some pk =>
          if decide (key < pk)
          then store_at root parent (set_left (newNode key))
          else store_at root parent (set_right (newNode key))
      end
  end.

Definition insert_iterative (root : tree) (key : Z) : tree :=
  match root with
  | NULL => newNode key
  | Node _ _ _ => insert_finish root key (insert_walk root [] None key)
  end.

Fixpoint search_recursive (root : tree) (key : Z) : tree :=
  match root with
  | NULL => NULL
  | Node k l r =>
      if decide (k = key) then root
      else if decide (key < k) then search_recursive l key
      else search_recursive r key
  end.

(** [while (cur && cur->left) cur = cur->left]. *)
Fixpoint minValueNode (node : tree) : tree :=
  match node with
  | NULL => NULL
  | Node _ l _ =>
      match l with
      | NULL => node
      | Node _ _ _ => minValueNode l
      end
  end.

Fixpoint deleteNode (root : tree) (key : Z) : tree :=
  match root with
  | NULL => NULL
  | Node k l r =>
      if decide (key < k) then Node k (deleteNode l key) r
      else if decide (key > k) then Node k l (deleteNode r key)
      else
        match l, r with
        | NULL, _ => r
        | Node _ _ _, NULL => l
        | Node _ _ _, Node _ _ _ =>
            match minValueNode r with
            | NULL => root
            | Node tk _ _ => Node tk l (deleteNode r tk)
            end
        end
  end.

(** The branch [deleteNode] takes each time its comparison reaches a node
    with the searched key, in the order of the calls. *)
Inductive delete_case : Type :=
| LeftAbsent      (* [root->left == NULL]: no child, or a right child only *)
| RightAbsent     (* [root->right == NULL]: a left child only *)
| TwoChildren.

Fixpoint deleteNode_cases (root : tree) (key : Z) : list delete_case :=
  match root with
  | NULL => []
  | Node k l r =>
      if decide (key < k) then deleteNode_cases l key
      else if decide (key > k) then deleteNode_cases r key
      else
        match l, r with
        | NULL, _ => [LeftAbsent]
        | Node _ _ _, NULL => [RightAbsent]
        | Node _ _ _, Node _ _ _ =>
            match minValueNode r with
            | NULL => [TwoChildren]
            | Node tk _ _ => TwoChildren :: deleteNode_cases r tk
            end
        end
  end.

(** [deleteNode] itself with, beside the tree it returns, the branches it
    takes: one function computes both, call for call. *)
Fixpoint deleteNode_traced (root : tree) (key : Z) : tree * list delete_case :=
  match root with
  | NULL => (NULL, [])
  | Node k l r =>
      if decide (key < k) then
        let '(l', c) := deleteNode_traced l key in (Node k l' r, c)
      else if decide (key > k) then
        let '(r', c) := deleteNode_traced r key in (Node k l r', c)
      else
        match l, r with
        | NULL, _ => (r, [LeftAbsent])
        | Node _ _ _, NULL => (l, [RightAbsent])
        | Node _ _ _, Node _ _ _ =>
            match minValueNode r with
            | NULL => (root, [TwoChildren])
            | Node tk _ _ =>
                let '(r', c) := deleteNode_traced r tk in
                (Node tk l r', TwoChildren :: c)
            end
        end
  end.

(** ** Traversal engine: the keys printed, in order *)

Fixpoint inorder (root : tree) : list Z :=
  match root with
  | NULL => []
  | Node k l r => inorder l ++ k :: inorder r
  end.

Fixpoint preorder (root : tree) : list Z :=
  match root with
  | NULL => []
  | Node k l r => k :: preorder l ++ preorder r
  end.

Fixpoint postorder (root : tree) : list Z :=
  match root with
  | NULL => []
  | Node k l r => postorder l ++ postorder r ++ [k]
  end.

(** ** The search-tree invariant *)

Fixpoint keys (t : tree) : gset Z :=
  match t with
  | NULL => ∅
  | Node k l r => keys l ∪ {[k]} ∪ keys r
  end.

Fixpoint BST (t : tree) : Prop :=
  match t with
  | NULL => True
  | Node k l r =>
      set_Forall (λ x, x < k) (keys l) ∧ set_Forall (λ x, k < x) (keys r)
      ∧ BST l ∧ BST r
  end.

#[global] Instance BST_dec t : Decision (BST t).
Proof. induction t; simpl; apply _. Defined.

(** The seven-node tree of the specification's scenario. *)
Definition scenario_tree : tree :=
  fold_left insert_recursive [50; 30; 70; 20; 40; 60; 80] NULL.

(** ** Neighbour queries *)

(** [while (pred->right) pred = pred->right]. *)
Fixpoint rightmost (pred : tree) : tree :=
  match pred with
  | NULL => NULL
  | Node _ _ r =>
      match r with
      | NULL => pred
      | Node _ _ _ => rightmost r
      end
  end.

(** [while (succ->left) succ = succ->left]. *)
Fixpoint leftmost (succ : tree) : tree :=
  match succ with
  | NULL => NULL
  | Node _ l _ =>
      match l with
      | NULL => succ
      | Node _ _ _ => leftmost l
      end
  end.

(** The [while (cur)] loop of [predecessor], from the state [(cur, pred)]. *)
Fixpoint predecessor_loop (cur pred : tree) (key : Z) : tree :=
  match cur with
  | NULL => pred
  | Node k l r =>
      if decide (key > k) then predecessor_loop r cur key
      else if decide (key < k) then predecessor_loop l pred key
      else
        match l with
        | NULL => pred
        | Node _ _ _ => rightmost l
        end
  end.

Definition predecessor (root : tree) (key : Z) : tree :=
  predecessor_loop root NULL key.

Fixpoint successor_loop (cur succ : tree) (key : Z) : tree :=
  match cur with
  | NULL => succ
  | Node k l r =>
      if decide (key < k) then successor_loop l cur key
      else if decide (key > k) then successor_loop r succ key
      else
        match r with
        | NULL => succ
        | Node _ _ _ => leftmost r
        end
  end.

Definition successor (root : tree) (key : Z) : tree :=
  successor_loop root NULL key.

(** ** Statistics, in [int] arithmetic *)

Fixpoint height (root : tree) : Z :=
  match root with
  | NULL => 0
  | Node _ l r =>
      let lh := height l in
      let rh := height r in
      int_add (if decide (lh > rh) then lh else rh) 1
  end.

Fixpoint count_nodes (root : tree) : Z :=
  match root with
  | NULL => 0
  | Node _ l r => int_add (int_add 1 (count_nodes l)) (count_nodes r)
  end.

Fixpoint count_leaves (root : tree) : Z :=
  match root with
  | NULL => 0
  | Node _ NULL NULL => 1
  | Node _ l r => int_add (count_leaves l) (count_leaves r)
  end.

(** The statistics as the specification words them, over the integers. *)
Fixpoint spec_height (t : tree) : Z :=
  match t with
  | NULL => 0
  | Node _ l r => 1 + Z.max (spec_height l) (spec_height r)
  end.

Fixpoint spec_count (t : tree) : Z :=
  match t with
  | NULL => 0
  | Node _ l r => 1 + spec_count l + spec_count r
  end.

Fixpoint spec_leafCount (t : tree) : Z :=
  match t with
  | NULL => 0
  | Node _ NULL NULL => 1
  | Node _ l r => spec_leafCount l + spec_leafCount r
  end.

(** ** Structural codec *)

(** A stream is the sequence of characters still to be read from, or already
    written to, a [FILE*]. *)
Definition stream : Type := list ascii.

Definition chr (n : N) : ascii := ascii_of_N n.
Definition ord (c : ascii) : Z := Z.of_N (N_of_ascii c).

Definition SPACE : ascii := chr 32.
Definition HASH : ascii := chr 35.
Definition MINUS : ascii := chr 45.
Definition PLUS : ascii := chr 43.
Definition NUL : ascii := chr 0.

(** *** Output: [fprintf(fp, "%d ", key)] and [fprintf(fp, "# ")] *)

Fixpoint uint_chars (d : Decimal.uint) : list ascii :=
  match d with
  | Decimal.Nil => []
  | Decimal.D0 d => chr 48 :: uint_chars d
  | Decimal.D1 d => chr 49 :: uint_chars d
  | Decimal.D2 d => chr 50 :: uint_chars d
  | Decimal.D3 d => chr 51 :: uint_chars d
  | Decimal.D4 d => chr 52 :: uint_chars d
  | Decimal.D5 d => chr 53 :: uint_chars d
  | Decimal.D6 d => chr 54 :: uint_chars d
  | Decimal.D7 d => chr 55 :: uint_chars d
  | Decimal.D8 d => chr 56 :: uint_chars d
  | Decimal.D9 d => chr 57 :: uint_chars d
  end.

(** The conversion [%d]: decimal digits without leading zeros, [-] in front
    of a negative number. *)
Definition print_int (z : Z) : list ascii :=
  match Z.to_int z with
  | Decimal.Pos d => uint_chars d
  | Decimal.Neg d => MINUS :: uint_chars d
  end.

Fixpoint save_tree_preorder (root : tree) : stream :=
  match root with
  | NULL => [HASH; SPACE]
  | Node k l r =>
      print_int k ++ [SPACE] ++ save_tree_preorder l ++ save_tree_preorder r
  end.

(** *** Input: [fscanf(fp, "%63s", buf)], [strcmp] and [atoi] *)

(** [isspace] in the C locale: space, and the controls from tab to carriage
    return. *)
Definition isspace (c : ascii) : bool :=
  bool_decide (ord c = 32 ∨ 9 ≤ ord c ≤ 13).

Fixpoint skip_space (fp : stream) : stream :=
  match fp with
  | [] => []
  | c :: fp' => if isspace c then skip_space fp' else fp
  end.

(** At most [width] characters up to the next white space. *)
Fixpoint read_word (width : nat) (fp : stream) : list ascii * stream :=
  match width, fp with
  | S w, c :: fp' =>
      if isspace c then ([], fp)
      else let '(buf, rest) := read_word w fp' in (c :: buf, rest)
  | _, _ => ([], fp)
  end.

(** [fscanf(fp, "%63s", buf)]: [None] when the end of the stream comes before
    any character of a word (the call then does not return 1), else the word
    stored in [buf]; with it, the stream left to read. *)
Definition fscanf_s63 (fp : stream) : option (list ascii) * stream :=
  match skip_space fp with
  | [] => (None, [])
  | c :: fp' => let '(buf, rest) := read_word 63 (c :: fp') in (Some buf, rest)
  end.

(** A character array read as a C string ends at its first NUL. *)
Fixpoint c_string (buf : list ascii) : list ascii :=
  match buf with
  | [] => []
  | c :: buf' => if decide (c = NUL) then [] else c :: c_string buf'
  end.

Definition is_digit (c : ascii) : Prop := 48 ≤ ord c ≤ 57.

Definition digit_val (c : ascii) : option Z :=
  if decide (is_digit c) then Some (ord c - 48) else None.

(** A string at whose start no further digit can be read. *)
Definition no_digit_ahead (s : list ascii) : Prop :=
  match s with
  | [] => True
  | c :: _ => ¬ is_digit c
  end.

(** All keys of the tree are values of type [int]. *)
Definition int_keys (t : tree) : Prop := set_Forall is_int (keys t).

#[global] Instance int_keys_dec t : Decision (int_keys t).
Proof. unfold int_keys. apply _. Defined.

Fixpoint digits_val (acc : Z) (s : list ascii) : Z :=
  match s with
  | [] => acc
  | c :: s' =>
      match digit_val c with
      | Some d => digits_val (10 * acc + d) s'
      | None => acc
      end
  end.

(** [strtol(s, NULL, 10)]: white space, an optional sign, then the longest
    run of digits; a value outside [long] is clamped to the nearest end.
    [long] is 64 bits wide. *)
Definition strtol (s : list ascii) : Z :=
  let s := skip_space s in
  let '(neg, s) :=
    match s with
    | c :: s' =>
        if decide (c = MINUS) then (true, s')
        else if decide (c = PLUS) then (false, s')
        else (false, s)
    | [] => (false, s)
    end in
  let v := digits_val 0 s in
  let v := if neg : bool then - v else v in
  Z.max LONG_MIN (Z.min LONG_MAX v).

(** [atoi(s)] is [(int) strtol(s, NULL, 10)], as in the GNU C library; the C
    standard fixes the result only when the number is a value of [int]. *)
Definition atoi (s : list ascii) : Z := int_wrap (strtol s).

(** [load_tree_preorder], with [fuel] bounding the depth of the calls; [None]
    only when the fuel is used up. *)
Fixpoint load_fuel (fuel : nat) (fp : stream) : option (tree * stream) :=
  match fuel with
  | O => None
  | S fuel' =>
      match fscanf_s63 fp with
      | (None, fp1) => Some (NULL, fp1)
      | (Some buf, fp1) =>
          if decide (c_string buf = [HASH]) then Some (NULL, fp1)
          else
            let val := atoi (c_string buf) in
            match load_fuel fuel' fp1 with
            | None => None
            | Some (l, fp2) =>
                match load_fuel fuel' fp2 with
                | None => None
                | Some (r, fp3) => Some (Node val l r, fp3)
                end
            end
      end
  end.

(** Every call reads at least one character before it calls itself, so one
    unit of fuel per character, and one more, is enough (see
    [load_tree_preorder_total]). *)
Definition load_tree_preorder (fp : stream) : option (tree * stream) :=
  load_fuel (S (length fp)) fp.

(** ** The menu loop of [main] *)

Inductive command : Type :=
| CmdInsertRecursive (key : Z)          (* choice 1 *)
| CmdInsertIterative (key : Z)          (* choice 2 *)
| CmdDelete (key : Z)                   (* choice 4 *)
| CmdLoad (file : option stream)        (* choice 9; [None]: [fopen] failed *)
| CmdClear.                             (* choice 10 *)

(** One turn of the loop on the variable [root].  For choice 9 the old tree is
    freed before the file is read, and [root] receives whatever
    [load_tree_preorder] returns. *)
Definition menu_step (root : tree) (c : command) : tree :=
  match c with
  | CmdInsertRecursive key => insert_recursive root key
  | CmdInsertIterative key => insert_iterative root key
  | CmdDelete key => deleteNode root key
  | CmdLoad None => root
  | CmdLoad (Some fp) =>
      match load_tree_preorder fp with
      | Some (t, _) => t
      | None => NULL
      end
  | CmdClear => NULL
  end.

Definition menu_run (root : tree) (cs : list command) : tree :=
  fold_left menu_step cs root.

(** The updates of a tree: menu choices 1, 2 and 4. *)
Inductive update : Type :=
| UInsertRecursive (key : Z)
| UInsertIterative (key : Z)
| UDelete (key : Z).

Definition update_command (u : update) : command :=
  match u with
  | UInsertRecursive key => CmdInsertRecursive key
  | UInsertIterative key => CmdInsertIterative key
  | UDelete key => CmdDelete key
  end.

(** The tree after a sequence of updates of the empty tree. *)
Definition tree_after (us : list update) : tree :=
  menu_run NULL (update_command <$> us).

Definition inserts (key : Z) (u : update) : Prop :=
  u = UInsertRecursive key ∨ u = UInsertIterative key.

(** [key] was inserted at some point of [us] and not deleted after it. *)
Definition inserted_not_deleted (us : list update) (key : Z) : Prop :=
  ∃ pre u post, us = pre ++ u :: post ∧ inserts key u ∧ UDelete key ∉ post.

(** The neighbours of [key] in an ascending list of keys: the last key below
    it and the first key above it. *)
Definition list_predecessor (ks : list Z) (key : Z) : option Z :=
  last (filter (λ x, x < key) ks).

Definition list_successor (ks : list Z) (key : Z) : option Z :=
  head (filter (λ x, key < x) ks).

(** [o] is the largest key of [S] strictly below [key], or is absent when [S]
    has no key below [key]; and the mirror image. *)
Definition greatest_below (S : gset Z) (key : Z) (o : option Z) : Prop :=
  match o with
  | Some p => p ∈ S ∧ p < key ∧ ∀ x, x ∈ S → x < key → x ≤ p
  | None => ∀ x, x ∈ S → ¬ x < key
  end.

Definition least_above (S : gset Z) (key : Z) (o : option Z) : Prop :=
  match o with
  | Some s => s ∈ S ∧ key < s ∧ ∀ x, x ∈ S → key < x → s ≤ x
  | None => ∀ x, x ∈ S → ¬ key < x
  end.

(** A word that one [fscanf(fp, "%63s", buf)] reads whole and that [buf]
    holds as a C string: not empty, free of white space and NUL, of at most
    63 characters. *)
Definition is_word (tok : list ascii) : Prop :=
  tok ≠ [] ∧ Forall (λ c, isspace c = false ∧ c ≠ NUL) tok
  ∧ (length tok ≤ 63)%nat.

(** The stream ends here or goes on with white space. *)
Definition word_boundary (fp : stream) : Prop :=
  match fp with
  | [] => True
  | c :: _ => isspace c = true
  end.

(** After optional white space and sign, [s] shows no digit: [atoi] has
    nothing to convert. *)
Definition no_number (s : list ascii) : Prop :=
  match skip_space s with
  | [] => True
  | c :: s' =>
      if decide (c = MINUS ∨ c = PLUS) then no_digit_ahead s' else ¬ is_digit c
  end.

(** *** The persisted format as the specification gives it

    [tree := node], [node := "#" | INTEGER node node], over the tokens of the
    stream, which white space separates. *)
Fixpoint tokens_from (cur : list ascii) (fp : stream) : list (list ascii) :=
  match fp with
  | [] =>
      match cur with
      | [] => []
      | _ :: _ => [rev cur]
      end
  | c :: fp' =>
      if isspace c then
        match cur with
        | [] => tokens_from [] fp'
        | _ :: _ => rev cur :: tokens_from [] fp'
        end
      else tokens_from (c :: cur) fp'
  end.

Definition tokens (fp : stream) : list (list ascii) := tokens_from [] fp.

(** An integer token: digits, with or without a sign in front. *)
Definition integer_token (tok : list ascii) : Prop :=
  match tok with
  | [] => False
  | c :: s =>
      if decide (c = MINUS ∨ c = PLUS) then s ≠ [] ∧ Forall is_digit s
      else Forall is_digit tok
  end.

(** [spec_node ts rest]: the tokens [ts] start with a [node], after which
    [rest] remains. *)
Inductive spec_node : list (list ascii) → list (list ascii) → Prop :=
| spec_node_absent rest :
    spec_node ([HASH] :: rest) rest
| spec_node_key tok ts ts' rest :
    integer_token tok → spec_node ts ts' → spec_node ts' rest →
    spec_node (tok :: ts) rest.

(** The stream runs out, or shows a token that is neither [#] nor an
    integer, before a whole tree has been read. *)
Definition malformed (fp : stream) : Prop := ¬ ∃ rest, spec_node (tokens fp) rest.

(** The stream [50 30 # x7]: a token that is no integer, and no token where
    the right subtree of 50 is due. *)
Definition broken_stream : stream :=
  ["5"; "0"; " "; "3"; "0"; " "; "#"; " "; "x"; "7"]%char.

(** ** Level-order traversal

    The queue of [struct QueueNode] cells between [head] and [tail] is the
    list of the tree nodes it holds, oldest first. *)
Definition queue : Type := list tree.

Definition enqueue (q : queue) (tn : tree) : queue := q ++ [tn].

(** [dequeue] returns [NULL] on an empty queue. *)
Definition dequeue (q : queue) : tree * queue :=
  match q with
  | [] => (NULL, [])
  | tn :: q' => (tn, q')
  end.

(** The number of nodes, and the number of levels, as natural numbers. *)
Fixpoint size (t : tree) : nat :=
  match t with
  | NULL => 0
  | Node _ l r => S (size l + size r)
  end.

Fixpoint depth (t : tree) : nat :=
  match t with
  | NULL => 0
  | Node _ l r => S (depth l `max` depth r)
  end.

(** The [while (head)] loop of [levelOrder]: the keys it prints.  [fuel]
    bounds the number of iterations; [None] stands for no result, when the
    fuel is used up or the loop would read [n->key] through [NULL]. *)
Fixpoint levelOrder_loop (fuel : nat) (q : queue) : option (list Z) :=
  match q with
  | [] => Some []
  | _ :: _ =>
      match fuel with
      | O => None
      | S fuel' =>
          let '(n, q) := dequeue q in
          match n with
          | NULL => None
          | Node k l r =>
              let q := match l with NULL => q | Node _ _ _ => enqueue q l end in
              let q := match r with NULL => q | Node _ _ _ => enqueue q r end in
              cons k <$> levelOrder_loop fuel' q
          end
      end
  end.

(** Every iteration takes one node off the queue for good, so one unit of
    fuel per node of the tree is enough. *)
Definition levelOrder (root : tree) : option (list Z) :=
  match root with
  | NULL => Some []
  | Node _ _ _ => levelOrder_loop (size root) (enqueue [] root)
  end.

(** The keys at distance [d] from the root, from left to right, and the keys
    of the tree level after level. *)
Fixpoint level (d : nat) (t : tree) : list Z :=
  match t, d with
  | NULL, _ => []
  | Node k _ _, O => [k]
  | Node _ l r, S d' => level d' l ++ level d' r
  end.

Definition by_levels (t : tree) : list Z :=
  flat_map (λ d, level d t) (seq 0 (depth t)).

(** What the loop of [levelOrder] prints from a queue whose front part [q1]
    holds nodes of one level and whose back part [q2] holds nodes of the
    next: the roots of [q1], then level after level of [q2] and [q1]
    together, down to [D] levels. *)
Definition levels_of_queue (D : nat) (q1 q2 : queue) : list Z :=
  flat_map (level 0) q1
  ++ flat_map (λ d, flat_map (level d) q2 ++ flat_map (level (S d)) q1) (seq 0 D).

(** The child pointer as the list of nodes to enqueue for it. *)
Definition present (t : tree) : queue :=
  match t with
  | NULL => []
  | Node _ _ _ => [t]
  end.

Definition queue_size (q : queue) : nat := sum_list_with size q.

(** The words [save_tree_preorder] writes: the keys in preorder, with [#] at
    every absent child. *)
Fixpoint preorder_tokens (t : tree) : list (list ascii) :=
  match t with
  | NULL => [[HASH]]
  | Node k l r => print_int k :: preorder_tokens l ++ preorder_tokens r
  end.

(** A command that either leaves the tree alone, updates a search tree, or
    loads a file that [save_tree_preorder] wrote from a search tree. *)
Definition orderly (c : command) : Prop :=
  match c with
  | CmdLoad (Some fp) => ∃ t, BST t ∧ int_keys t ∧ fp = save_tree_preorder t
  | _ => True
  end.

(** The tree in which every node has a right child only, holding [ks] from
    the root down. *)
Fixpoint right_spine (ks : list Z) : tree :=
  match ks with
  | [] => NULL
  | k :: ks' => Node k NULL (right_spine ks')
  end.

(** * Properties *)

(** ** Keys and the invariant *)

Ltac by_cases_on_key :=
  repeat (simpl in *; case_decide); simpl in *; try lia.

Lemma elem_of_inorder t x : x ∈ inorder t ↔ x ∈ keys t.
Proof. induction t as [|k l IHl r IHr]; simpl; set_solver. Qed.

Lemma BST_node k l r :
  BST (Node k l r) ↔
  (∀ x, x ∈ keys l → x < k) ∧ (∀ x, x ∈ keys r → k < x) ∧ BST l ∧ BST r.
Proof. reflexivity. Qed.

Lemma StronglySorted_app_cons (xs ys : list Z) (k : Z) :
  StronglySorted Z.lt xs → StronglySorted Z.lt ys →
  (∀ x, x ∈ xs → x < k) → (∀ y, y ∈ ys → k < y) →
  StronglySorted Z.lt (xs ++ k :: ys).
Proof.
  intros Hxs Hys Hlt Hgt.
  induction Hxs as [|x xs Hxs IH Hx]; simpl.
  - constructor; [done|]. apply Forall_forall. intros y Hy. by apply Hgt.
  - constructor.
    + apply IH. intros z Hz. apply Hlt. by right.
    + apply Forall_app. split; [done|].
      assert (x < k) by (apply Hlt; left).
      constructor; [done|].
      apply Forall_forall. intros y Hy. specialize (Hgt y Hy). lia.
Qed.

(** The in-order sequence of a search tree is strictly ascending. *)
Lemma BST_inorder_sorted t : BST t → StronglySorted Z.lt (inorder t).
Proof.
  induction t as [|k l IHl r IHr]; simpl.
  - constructor.
  - intros (Hl & Hr & Bl & Br).
    apply StronglySorted_app_cons; auto.
    + intros x Hx. apply Hl. by apply elem_of_inorder.
    + intros x Hx. apply Hr. by apply elem_of_inorder.
Qed.

Lemma StronglySorted_lt_NoDup (xs : list Z) :
  StronglySorted Z.lt xs → NoDup xs.
Proof.
  induction 1 as [|x xs _ IH Hx]; constructor; [|done].
  intros Hin. rewrite Forall_forall in Hx. specialize (Hx x Hin). lia.
Qed.

Lemma BST_inorder_NoDup t : BST t → NoDup (inorder t).
Proof. intros. by apply StronglySorted_lt_NoDup, BST_inorder_sorted. Qed.

(** ** Insertion *)

Lemma keys_insert_recursive t key :
  keys (insert_recursive t key) = {[key]} ∪ keys t.
Proof.
  induction t as [|k l IHl r IHr]; by_cases_on_key.
  - set_solver.
  - rewrite IHl. set_solver.
  - rewrite IHr. set_solver.
  - assert (key = k) as -> by lia. set_solver.
Qed.

Lemma BST_insert_recursive t key : BST t → BST (insert_recursive t key).
Proof.
  induction t as [|k l IHl r IHr]; simpl.
  - intros _. unfold newNode. simpl. set_solver.
  - intros (Hl & Hr & Bl & Br). by_cases_on_key.
    + repeat split; auto. intros x. rewrite keys_insert_recursive.
      intros [->%elem_of_singleton | ?]%elem_of_union; [lia | by apply Hl].
    + repeat split; auto. intros x. rewrite keys_insert_recursive.
      intros [->%elem_of_singleton | ?]%elem_of_union; [lia | by apply Hr].
    + repeat split; auto.
Qed.

(** *** The iterative insert computes the recursive one *)

Lemma deref_nil root : deref root [] = root.
Proof. by destruct root. Qed.

Lemma store_at_nil root f : store_at root [] f = f root.
Proof. by destruct root. Qed.

Lemma store_at_id root p : store_at root p (λ c, c) = root.
Proof.
  revert root. induction p as [|[] p IH]; intros [|k l r]; simpl;
    try done; by rewrite IH.
Qed.

Lemma store_at_app root p q f :
  store_at root (p ++ q) f = store_at root p (λ n, store_at n q f).
Proof.
  revert root. induction p as [|[] p IH]; intros [|k l r]; simpl;
    try done; by rewrite IH.
Qed.

Lemma deref_app root p q : deref root (p ++ q) = deref (deref root p) q.
Proof.
  revert root. induction p as [|[] p IH]; intros [|k l r]; simpl;
    try done; try apply IH; by destruct q as [|[] ?].
Qed.

Lemma store_at_ext root p f g :
  f (deref root p) = g (deref root p) → store_at root p f = store_at root p g.
Proof.
  revert root. induction p as [|[] p IH]; intros [|k l r]; simpl; try done;
    intros H; by rewrite (IH _ H).
Qed.

(** The loop of [insert_iterative] followed by the assignment, from any state
    in which [cur] is the node at [curp] and, when [cur] is [NULL], [parent]
    is the node above it from which the last comparison led to [cur]. *)
Lemma insert_walk_spec root key cur curp parent :
  deref root curp = cur →
  (cur = NULL →
   ∃ pp pk pl pr, parent = Some pp ∧ deref root pp = Node pk pl pr ∧
     ((key < pk ∧ curp = pp ++ [GoLeft]) ∨ (key > pk ∧ curp = pp ++ [GoRight]))) →
  insert_finish root key (insert_walk cur curp parent key)
  = store_at root curp (λ c, insert_recursive c key).
Proof.
  revert curp parent.
  induction cur as [|k l IHl r IHr]; intros curp parent Hcur Hpar.
  - destruct (Hpar eq_refl) as (pp & pk & pl & pr & -> & Hpp & Hdir).
    simpl. rewrite Hpp. simpl.
    destruct Hdir as [[Hlt ->] | [Hgt ->]]; case_decide; try lia;
      rewrite store_at_app; apply store_at_ext; rewrite Hpp; simpl;
      rewrite deref_app, Hpp in Hcur; simpl in Hcur;
      rewrite deref_nil in Hcur; by rewrite store_at_nil, Hcur.
  - simpl. case_decide; [|case_decide].
    + rewrite IHl.
      * rewrite store_at_app. apply store_at_ext. rewrite Hcur. simpl.
        rewrite store_at_nil. by case_decide.
      * by rewrite deref_app, Hcur; simpl; rewrite deref_nil.
      * intros _. exists curp, k, l, r. auto.
    + rewrite IHr.
      * rewrite store_at_app. apply store_at_ext. rewrite Hcur. simpl.
        rewrite store_at_nil. repeat case_decide; try lia; done.
      * by rewrite deref_app, Hcur; simpl; rewrite deref_nil.
      * intros _. exists curp, k, l, r. auto.
    + simpl. symmetry.
      transitivity (store_at root curp (λ c, c)).
      * apply store_at_ext. rewrite Hcur. simpl. repeat case_decide; try lia; done.
      * apply store_at_id.
Qed.

Lemma insert_iterative_recursive root key :
  insert_iterative root key = insert_recursive root key.
Proof.
  destruct root as [|k l r]; [done|].
  unfold insert_iterative. by rewrite insert_walk_spec.
Qed.

(** ** Deletion *)

Lemma minValueNode_shape t :
  t ≠ NULL → ∃ m mr, minValueNode t = Node m NULL mr.
Proof.
  induction t as [|k l IHl r _]; [done|]. intros _. simpl.
  destruct l as [|lk ll lr]; [by eauto|]. by apply IHl.
Qed.

Lemma minValueNode_least t m ml mr :
  BST t → minValueNode t = Node m ml mr →
  m ∈ keys t ∧ ∀ x, x ∈ keys t → m ≤ x.
Proof.
  induction t as [|k l IHl r _]; [done|].
  intros (Hl & Hr & Bl & Br). simpl.
  destruct l as [|lk ll lr].
  - intros [= -> _ _]. split; [set_solver|].
    intros x Hx. simpl in Hx.
    assert (x = m ∨ x ∈ keys r) as [->|Hx'] by set_solver; [lia|].
    specialize (Hr _ Hx'). simpl in Hr. lia.
  - intros Hmin. destruct (IHl Bl Hmin) as [Hm Hle].
    split; [set_solver|].
    intros x Hx.
    assert (x ∈ keys (Node lk ll lr) ∨ x = k ∨ x ∈ keys r) as [?|[->|Hx']]
      by set_solver.
    + by apply Hle.
    + specialize (Hl _ Hm). simpl in Hl. lia.
    + specialize (Hl _ Hm). specialize (Hr _ Hx'). simpl in *. lia.
Qed.

Lemma deleteNode_eq_left_absent k r : deleteNode (Node k NULL r) k = r.
Proof. by_cases_on_key. done. Qed.

Lemma deleteNode_eq_right_absent k l : deleteNode (Node k l NULL) k = l.
Proof. by_cases_on_key. by destruct l. Qed.

Lemma deleteNode_eq_two_children k l r m ml mr :
  l ≠ NULL → r ≠ NULL → minValueNode r = Node m ml mr →
  deleteNode (Node k l r) k = Node m l (deleteNode r m).
Proof.
  intros Hl Hr Hmin. cbn [deleteNode].
  case_decide; [lia|]. case_decide; [lia|].
  destruct l as [|lk ll lr]; [done|]. destruct r as [|rk rl rr]; [done|].
  by rewrite Hmin.
Qed.

Lemma keys_deleteNode t key : BST t → keys (deleteNode t key) = keys t ∖ {[key]}.
Proof.
  revert key. induction t as [|k l IHl r IHr]; intros key; [set_solver|].
  intros (Hl & Hr & Bl & Br).
  assert (k ∉ keys l) by (intros Hk; specialize (Hl _ Hk); simpl in Hl; lia).
  assert (k ∉ keys r) by (intros Hk; specialize (Hr _ Hk); simpl in Hr; lia).
  destruct (Z.lt_total key k) as [Hlt | [-> | Hgt]].
  - cbn [deleteNode]. case_decide; [|lia].
    cbn [keys]. rewrite IHl by done. clear IHl IHr.
    apply set_eq. intros x. specialize (Hr x). simpl in Hr. set_unfold.
    split.
    + intros [[[? ?]| ->]|Hx]; split; auto; try specialize (Hr Hx); lia.
    + intros [[[?|?]|?] ?]; auto.
  - destruct (decide (l = NULL)) as [->|Hln].
    { rewrite deleteNode_eq_left_absent. cbn [keys]. clear -H0. set_solver. }
    destruct (decide (r = NULL)) as [->|Hrn].
    { rewrite deleteNode_eq_right_absent. cbn [keys]. clear -H. set_solver. }
    destruct (minValueNode_shape r Hrn) as (m & mr & Hmin).
    rewrite (deleteNode_eq_two_children _ _ _ _ _ _ Hln Hrn Hmin).
    destruct (minValueNode_least _ _ _ _ Br Hmin) as [Hm Hle].
    cbn [keys]. rewrite IHr by done. clear IHl IHr Hl Hr Hle Hmin.
    apply set_eq. intros x. set_unfold.
    assert (k ≠ m) by (by intros ->).
    destruct (decide (x = k)) as [->|]; [tauto|].
    destruct (decide (x = m)) as [->|]; tauto.
  - cbn [deleteNode]. case_decide; [lia|]. case_decide; [|lia].
    cbn [keys]. rewrite IHr by done. clear IHl IHr.
    apply set_eq. intros x. specialize (Hl x). simpl in Hl. set_unfold.
    split.
    + intros [[Hx| ->]|[? ?]]; split; auto; try specialize (Hl Hx); lia.
    + intros [[[?|?]|?] ?]; auto.
Qed.

Lemma BST_deleteNode t key : BST t → BST (deleteNode t key).
Proof.
  revert key. induction t as [|k l IHl r IHr]; intros key; [done|].
  intros (Hl & Hr & Bl & Br).
  destruct (Z.lt_total key k) as [Hlt | [-> | Hgt]].
  - cbn [deleteNode]. case_decide; [|lia].
    apply BST_node. repeat split; auto. intros x. rewrite keys_deleteNode by done.
    intros [? _]%elem_of_difference. by apply Hl.
  - destruct (decide (l = NULL)) as [->|Hln].
    { by rewrite deleteNode_eq_left_absent. }
    destruct (decide (r = NULL)) as [->|Hrn].
    { by rewrite deleteNode_eq_right_absent. }
    destruct (minValueNode_shape r Hrn) as (m & mr & Hmin).
    rewrite (deleteNode_eq_two_children _ _ _ _ _ _ Hln Hrn Hmin).
    destruct (minValueNode_least _ _ _ _ Br Hmin) as [Hm Hle].
    pose proof (Hr _ Hm) as Hkm. simpl in Hkm.
    apply BST_node. repeat split; auto.
    + intros x Hx. specialize (Hl _ Hx). simpl in Hl. lia.
    + intros x. rewrite keys_deleteNode by done.
      intros [Hx Hne]%elem_of_difference.
      specialize (Hle _ Hx). rewrite elem_of_singleton in Hne. lia.
  - cbn [deleteNode]. case_decide; [lia|]. case_decide; [|lia].
    apply BST_node. repeat split; auto. intros x. rewrite keys_deleteNode by done.
    intros [? _]%elem_of_difference. by apply Hr.
Qed.

(** Deleting the least key of a search tree reaches the node that holds it,
    and that node has no left child. *)
Lemma deleteNode_cases_least t m ml mr :
  BST t → minValueNode t = Node m ml mr → deleteNode_cases t m = [LeftAbsent].
Proof.
  induction t as [|k l IHl r _]; [done|].
  intros (Hl & Hr & Bl & Br). simpl.
  destruct l as [|lk ll lr].
  - intros [= -> _ _]. by_cases_on_key. done.
  - intros Hmin. destruct (minValueNode_least _ _ _ _ Bl Hmin) as [Hm _].
    specialize (Hl _ Hm). simpl in Hl.
    case_decide; [|lia]. by apply IHl.
Qed.

(** ** Search decides membership *)

Lemma search_recursive_elem t key : search_recursive t key ≠ NULL → key ∈ keys t.
Proof.
  induction t as [|k l IHl r IHr]; simpl; [done|].
  repeat case_decide; set_solver.
Qed.

Lemma search_recursive_found t key :
  BST t → key ∈ keys t → ∃ l r, search_recursive t key = Node key l r.
Proof.
  induction t as [|k l IHl r IHr]; simpl; [set_solver|].
  intros (Hl & Hr & Bl & Br) Hin. case_decide as Hk; [subst; eauto|].
  assert (key ∈ keys l ∨ key ∈ keys r) as [Hkey|Hkey] by set_solver.
  - pose proof (Hl _ Hkey). simpl in *. case_decide; [auto|lia].
  - pose proof (Hr _ Hkey). simpl in *. case_decide; [lia|auto].
Qed.

Lemma insert_recursive_present t key :
  search_recursive t key ≠ NULL → insert_recursive t key = t.
Proof.
  induction t as [|k l IHl r IHr]; simpl; [done|].
  repeat case_decide; try lia; intros H'; try done.
  - by rewrite IHl.
  - by rewrite IHr.
Qed.

Lemma deleteNode_absent t key :
  search_recursive t key = NULL → deleteNode t key = t.
Proof.
  induction t as [|k l IHl r IHr]; simpl; [done|].
  repeat case_decide; try lia; intros H'; try done.
  - by rewrite IHl.
  - by rewrite IHr.
Qed.

Lemma search_recursive_absent t key : key ∉ keys t → search_recursive t key = NULL.
Proof.
  intros Hnot. destruct (decide (search_recursive t key = NULL)) as [|Hne]; [done|].
  by apply search_recursive_elem in Hne.
Qed.

(** ** The scenario of the specification *)

Example scenario_shape :
  scenario_tree
  = Node 50 (Node 30 (Node 20 NULL NULL) (Node 40 NULL NULL))
            (Node 70 (Node 60 NULL NULL) (Node 80 NULL NULL)).
Proof. reflexivity. Qed.

Example scenario_traversals :
  inorder scenario_tree = [20; 30; 40; 50; 60; 70; 80]
  ∧ preorder scenario_tree = [50; 30; 20; 40; 70; 60; 80]
  ∧ postorder scenario_tree = [20; 40; 30; 60; 80; 70; 50].
Proof. by vm_compute. Qed.

Example scenario_statistics :
  height scenario_tree = 3 ∧ count_nodes scenario_tree = 7
  ∧ count_leaves scenario_tree = 4.
Proof. by vm_compute. Qed.

Example scenario_neighbours :
  node_key (predecessor scenario_tree 60) = Some 50
  ∧ node_key (successor scenario_tree 60) = Some 70
  ∧ node_key (predecessor scenario_tree 20) = None
  ∧ node_key (successor scenario_tree 80) = None
  ∧ node_key (predecessor scenario_tree 65) = Some 60
  ∧ node_key (successor scenario_tree 65) = Some 70.
Proof. by vm_compute. Qed.

Example scenario_delete_root :
  deleteNode scenario_tree 50
  = Node 60 (Node 30 (Node 20 NULL NULL) (Node 40 NULL NULL))
            (Node 70 NULL (Node 80 NULL NULL))
  ∧ inorder (deleteNode scenario_tree 50) = [20; 30; 40; 60; 70; 80]
  ∧ count_nodes (deleteNode scenario_tree 50) = 6.
Proof. by vm_compute. Qed.

Example scenario_delete_all :
  fold_left deleteNode [50; 30; 70; 20; 40; 60; 80] scenario_tree = NULL.
Proof. by vm_compute. Qed.

(** ** The mutation engine: claims *)

(** C1.  Insertion, recursive or iterative, and deletion turn a search tree
    into a search tree: in the result every key of a node's left subtree is
    below the node's key, every key of its right subtree is above it, and no
    key occurs twice. *)
Theorem BST_preserved t key :
  BST t →
  (BST (insert_recursive t key) ∧ NoDup (inorder (insert_recursive t key)))
  ∧ (BST (insert_iterative t key) ∧ NoDup (inorder (insert_iterative t key)))
  ∧ (BST (deleteNode t key) ∧ NoDup (inorder (deleteNode t key))).
Proof.
  intros Ht. rewrite insert_iterative_recursive.
  pose proof (BST_insert_recursive t key Ht).
  pose proof (BST_deleteNode t key Ht).
  auto using BST_inorder_NoDup.
Qed.

Lemma scenario_tree_BST : BST scenario_tree.
Proof. apply (bool_decide_unpack _). vm_compute. exact I. Qed.

Lemma BST_preserved_witness :
  BST scenario_tree
  ∧ BST (insert_recursive scenario_tree 65)
  ∧ BST (insert_iterative scenario_tree 65)
  ∧ BST (deleteNode scenario_tree 50).
Proof.
  split; [exact scenario_tree_BST|].
  pose proof (BST_preserved scenario_tree 65 scenario_tree_BST) as (Hr & Hi & _).
  pose proof (BST_preserved scenario_tree 50 scenario_tree_BST) as (_ & _ & Hd).
  exact (conj (proj1 Hr) (conj (proj1 Hi) (proj1 Hd))).
Defined.

(** C4.  A duplicate insert and a delete of an absent key return the tree
    they were given, node for node, so that the count, the height and every
    traversal are the same as before.  Presence is what [search_recursive]
    reports; on a search tree that is membership in the key set. *)
Theorem no_structural_change t key :
  (search_recursive t key ≠ NULL →
     insert_recursive t key = t ∧ insert_iterative t key = t)
  ∧ (search_recursive t key = NULL → deleteNode t key = t)
  ∧ (BST t → key ∈ keys t →
     insert_recursive t key = t ∧ insert_iterative t key = t)
  ∧ (key ∉ keys t → deleteNode t key = t).
Proof.
  assert (search_recursive t key ≠ NULL →
          insert_recursive t key = t ∧ insert_iterative t key = t) as Hins.
  { intros Hs. rewrite insert_iterative_recursive.
    by rewrite insert_recursive_present. }
  split; [exact Hins|]. split; [apply deleteNode_absent|]. split.
  - intros Ht Hin. apply Hins.
    destruct (search_recursive_found t key Ht Hin) as (l & r & ->). done.
  - intros Hnot. by apply deleteNode_absent, search_recursive_absent.
Qed.

Lemma no_structural_change_witness :
  (insert_recursive scenario_tree 40 = scenario_tree
   ∧ insert_iterative scenario_tree 40 = scenario_tree)
  ∧ deleteNode scenario_tree 45 = scenario_tree.
Proof.
  destruct (no_structural_change scenario_tree 40) as (Hins & _).
  destruct (no_structural_change scenario_tree 45) as (_ & Hdel & _).
  split; [apply Hins | apply Hdel]; vm_compute; congruence.
Defined.

(** C7.  The iterative insert returns the tree the recursive insert returns,
    on every tree, hence after every sequence of insertions into the empty
    tree. *)
Theorem insert_strategies_agree :
  (∀ t key, insert_iterative t key = insert_recursive t key)
  ∧ (∀ ks : list Z,
       fold_left insert_iterative ks NULL = fold_left insert_recursive ks NULL).
Proof.
  split; [apply insert_iterative_recursive|].
  intros ks. generalize NULL.
  induction ks as [|k ks IH]; intros t; simpl; [done|].
  by rewrite insert_iterative_recursive, IH.
Qed.

Lemma BST_left k l r : BST (Node k l r) → BST l.
Proof. by intros (_ & _ & ? & _). Qed.

Lemma BST_right k l r : BST (Node k l r) → BST r.
Proof. by intros (_ & _ & _ & ?). Qed.

(** The target of a two-children delete: where it is, what replaces its key,
    and the branches taken. *)
Lemma deleteNode_two_children_at t key l r :
  BST t → search_recursive t key = Node key l r → l ≠ NULL → r ≠ NULL →
  ∃ p m mr,
    deref t p = Node key l r
    ∧ minValueNode r = Node m NULL mr
    ∧ m ∈ keys r ∧ (∀ x, x ∈ keys r → m ≤ x)
    ∧ deleteNode t key = store_at t p (λ _, Node m l (deleteNode r m))
    ∧ deleteNode_cases t key = [TwoChildren; LeftAbsent]
    ∧ deleteNode_cases r m = [LeftAbsent].
Proof.
  intros Ht Hs Hl Hr.
  induction t as [|k tl IHl tr IHr]; [done|].
  cbn [search_recursive] in Hs.
  destruct (decide (k = key)) as [->|Hne].
  - injection Hs as -> ->.
    destruct (minValueNode_shape r Hr) as (m & mr & Hmin).
    destruct (minValueNode_least _ _ _ _ (BST_right _ _ _ Ht) Hmin) as [Hm Hle].
    pose proof (deleteNode_cases_least _ _ _ _ (BST_right _ _ _ Ht) Hmin) as Hc.
    exists [], m, mr. repeat split; try done.
    + by apply (deleteNode_eq_two_children _ _ _ _ NULL mr).
    + cbn [deleteNode_cases]. case_decide; [lia|]. case_decide; [lia|].
      destruct l; [done|]. destruct r; [done|]. by rewrite Hmin, Hc.
  - destruct (decide (key < k)) as [Hlt|Hge].
    + destruct (IHl (BST_left _ _ _ Ht) Hs)
        as (p & m & mr & Hp & Hmin & Hm & Hle & Hd & Hc & Hc').
      exists (GoLeft :: p), m, mr. repeat split; try done.
      * cbn [deleteNode store_at]. case_decide; [|lia]. by rewrite Hd.
      * cbn [deleteNode_cases]. by case_decide.
    + destruct (IHr (BST_right _ _ _ Ht) Hs)
        as (p & m & mr & Hp & Hmin & Hm & Hle & Hd & Hc & Hc').
      exists (GoRight :: p), m, mr. repeat split; try done.
      * cbn [deleteNode store_at]. case_decide; [lia|].
        case_decide; [|lia]. by rewrite Hd.
      * cbn [deleteNode_cases]. case_decide; [lia|]. by case_decide; [|lia].
Qed.

(** The traced function returns the tree of [deleteNode] and the branches of
    [deleteNode_cases]. *)
Lemma deleteNode_traced_eq t key :
  deleteNode_traced t key = (deleteNode t key, deleteNode_cases t key).
Proof.
  revert key. induction t as [|k l IHl r IHr]; intros key; [done|].
  cbn [deleteNode_traced deleteNode deleteNode_cases].
  destruct (decide (key < k)); [by rewrite IHl|].
  destruct (decide (key > k)); [by rewrite IHr|].
  destruct l as [|lk ll lr]; [done|]. destruct r as [|rk rl rr]; [done|].
  destruct (minValueNode (Node rk rl rr)) as [|tk ? ?]; [done|].
  by rewrite IHr.
Qed.

(** Deleting the least key of a search tree takes out the leftmost node and
    puts that node's right child, or nothing, in its place. *)
Lemma deleteNode_least r m ml mr :
  BST r → minValueNode r = Node m ml mr →
  ∃ q, deref r q = Node m NULL mr
       ∧ deleteNode r m = store_at r q (λ _, mr)
       ∧ inorder r = m :: inorder (deleteNode r m).
Proof.
  induction r as [|k l IHl rr _]; [done|].
  intros Hr Hmin.
  destruct (decide (l = NULL)) as [->|Hl].
  - cbn [minValueNode] in Hmin. injection Hmin as -> <- <-. exists [].
    by rewrite deleteNode_eq_left_absent.
  - assert (minValueNode (Node k l rr) = minValueNode l) as Hstep
      by (by destruct l).
    rewrite Hstep in Hmin.
    pose proof (BST_left _ _ _ Hr) as Bl.
    destruct (minValueNode_least _ _ _ _ Bl Hmin) as [Hm _].
    destruct Hr as (Hlt & _). specialize (Hlt _ Hm). cbn beta in Hlt.
    destruct (IHl Bl Hmin) as (q & Hq & Hd & Hin).
    exists (GoLeft :: q). cbn [deref store_at deleteNode inorder].
    rewrite decide_True by done. rewrite <- Hd.
    split_and!; [done..|]. by rewrite Hin at 1.
Qed.

Lemma inorder_store_at t p :
  deref t p ≠ NULL →
  ∃ a b, inorder t = a ++ inorder (deref t p) ++ b
         ∧ ∀ f, inorder (store_at t p f) = a ++ inorder (f (deref t p)) ++ b.
Proof.
  revert t. induction p as [|d p IH]; intros t Hp.
  - exists [], []. rewrite deref_nil. split; [by rewrite app_nil_r|].
    intros f. by rewrite store_at_nil, app_nil_r.
  - destruct t as [|k l r]; [by destruct d|].
    destruct d; cbn [deref store_at inorder] in *.
    + destruct (IH l Hp) as (a & b & Heq & Hf).
      exists a, (b ++ k :: inorder r). split.
      * by rewrite Heq, <- !app_assoc.
      * intros f. by rewrite Hf, <- !app_assoc.
    + destruct (IH r Hp) as (a & b & Heq & Hf).
      exists (inorder l ++ k :: a), b. split.
      * by rewrite Heq, <- !app_assoc.
      * intros f. by rewrite Hf, <- !app_assoc.
Qed.

(** C5.  When the node that holds [key] has two children, [deleteNode] takes
    the leftmost node of its right subtree, which has no left child and holds
    the least key of that subtree, writes that key into the target and
    deletes it from the right subtree.  That second deletion takes the
    leftmost node out and puts its right child, or nothing, in its place: it
    ends in the branch for an absent left child (no child or one child),
    never in the two-children branch.  In the in-order sequence the key is
    gone and its successor stands where it stood. *)
Theorem two_child_deletion t key l r :
  BST t → search_recursive t key = Node key l r → l ≠ NULL → r ≠ NULL →
  ∃ p q m mr l1 l2,
    deref t p = Node key l r
    ∧ minValueNode r = Node m NULL mr
    ∧ deref r q = Node m NULL mr
    ∧ m ∈ keys r ∧ (∀ x, x ∈ keys r → m ≤ x)
    ∧ deleteNode r m = store_at r q (λ _, mr)
    ∧ inorder r = m :: inorder (deleteNode r m)
    ∧ deleteNode t key = store_at t p (λ _, Node m l (store_at r q (λ _, mr)))
    ∧ deleteNode t key = store_at t p (λ _, Node m l (deleteNode r m))
    ∧ inorder t = l1 ++ key :: m :: l2
    ∧ inorder (deleteNode t key) = l1 ++ m :: l2
    ∧ keys (deleteNode t key) = keys t ∖ {[key]}
    ∧ deleteNode_traced t key = (deleteNode t key, [TwoChildren; LeftAbsent])
    ∧ deleteNode_traced r m = (deleteNode r m, [LeftAbsent])
    ∧ deleteNode_cases t key = [TwoChildren; LeftAbsent]
    ∧ deleteNode_cases r m = [LeftAbsent].
Proof.
  intros Ht Hs Hl Hr.
  destruct (deleteNode_two_children_at t key l r Ht Hs Hl Hr)
    as (p & m & mr & Hp & Hmin & Hm & Hle & Hd & Hc & Hc').
  assert (BST r) as Br.
  { clear -Ht Hp. revert t Ht Hp. induction p as [|d p IH]; intros t Ht Hp.
    - rewrite deref_nil in Hp. subst t. by apply BST_right in Ht.
    - destruct t as [|k tl tr]; [by destruct d|].
      destruct d; cbn [deref] in Hp;
        [apply (IH tl) | apply (IH tr)]; try done;
        [by apply BST_left in Ht | by apply BST_right in Ht]. }
  destruct (deleteNode_least r m NULL mr Br Hmin) as (q & Hq & Hdr & Hin).
  destruct (inorder_store_at t p) as (a & b & Heq & Hf); [by rewrite Hp|].
  rewrite Hp in Heq, Hf. cbn [inorder] in Heq.
  exists p, q, m, mr, (a ++ inorder l), (inorder (deleteNode r m) ++ b).
  split_and!; try done.
  - by rewrite <- Hdr.
  - rewrite Heq, Hin, <- !app_assoc. done.
  - rewrite Hd, Hf. cbn [inorder]. by rewrite <- !app_assoc.
  - by apply keys_deleteNode.
  - by rewrite deleteNode_traced_eq, Hc.
  - by rewrite deleteNode_traced_eq, Hc'.
Qed.

Lemma two_child_deletion_witness :
  ∃ p q m mr l1 l2,
    deref scenario_tree p
      = Node 50 (Node 30 (Node 20 NULL NULL) (Node 40 NULL NULL))
                (Node 70 (Node 60 NULL NULL) (Node 80 NULL NULL))
    ∧ minValueNode (Node 70 (Node 60 NULL NULL) (Node 80 NULL NULL))
      = Node m NULL mr
    ∧ deref (Node 70 (Node 60 NULL NULL) (Node 80 NULL NULL)) q = Node m NULL mr
    ∧ m ∈ keys (Node 70 (Node 60 NULL NULL) (Node 80 NULL NULL))
    ∧ (∀ x, x ∈ keys (Node 70 (Node 60 NULL NULL) (Node 80 NULL NULL)) → m ≤ x)
    ∧ deleteNode (Node 70 (Node 60 NULL NULL) (Node 80 NULL NULL)) m
      = store_at (Node 70 (Node 60 NULL NULL) (Node 80 NULL NULL)) q (λ _, mr)
    ∧ inorder (Node 70 (Node 60 NULL NULL) (Node 80 NULL NULL))
      = m :: inorder (deleteNode (Node 70 (Node 60 NULL NULL) (Node 80 NULL NULL)) m)
    ∧ deleteNode scenario_tree 50
      = store_at scenario_tree p
          (λ _, Node m (Node 30 (Node 20 NULL NULL) (Node 40 NULL NULL))
                  (store_at (Node 70 (Node 60 NULL NULL) (Node 80 NULL NULL)) q
                     (λ _, mr)))
    ∧ deleteNode scenario_tree 50
      = store_at scenario_tree p
          (λ _, Node m (Node 30 (Node 20 NULL NULL) (Node 40 NULL NULL))
                  (deleteNode (Node 70 (Node 60 NULL NULL) (Node 80 NULL NULL)) m))
    ∧ inorder scenario_tree = l1 ++ 50 :: m :: l2
    ∧ inorder (deleteNode scenario_tree 50) = l1 ++ m :: l2
    ∧ keys (deleteNode scenario_tree 50) = keys scenario_tree ∖ {[50]}
    ∧ deleteNode_traced scenario_tree 50
      = (deleteNode scenario_tree 50, [TwoChildren; LeftAbsent])
    ∧ deleteNode_traced (Node 70 (Node 60 NULL NULL) (Node 80 NULL NULL)) m
      = (deleteNode (Node 70 (Node 60 NULL NULL) (Node 80 NULL NULL)) m,
         [LeftAbsent])
    ∧ deleteNode_cases scenario_tree 50 = [TwoChildren; LeftAbsent]
    ∧ deleteNode_cases (Node 70 (Node 60 NULL NULL) (Node 80 NULL NULL)) m
      = [LeftAbsent].
Proof.
  apply (two_child_deletion scenario_tree 50); [exact scenario_tree_BST|..];
    vm_compute; congruence.
Defined.

(** ** Sequences of updates *)

Lemma inserted_not_deleted_snoc us u key :
  inserted_not_deleted (us ++ [u]) key
  ↔ inserts key u ∨ (inserted_not_deleted us key ∧ u ≠ UDelete key).
Proof.
  split.
  - intros (pre & v & post & Heq & Hv & Hpost).
    destruct post as [|w post _] using rev_ind.
    + apply app_inj_tail in Heq as [_ ->]. by left.
    + right. rewrite app_comm_cons, app_assoc in Heq.
      apply app_inj_tail in Heq as [-> ->].
      rewrite elem_of_app, list_elem_of_singleton in Hpost.
      split; [|naive_solver]. exists pre, v, post. naive_solver.
  - intros [Hu | [(pre & v & post & -> & Hv & Hpost) Hne]].
    + exists us, u, []. split_and!; [done | done | apply not_elem_of_nil].
    + exists pre, v, (post ++ [u]). split_and!; [by rewrite <- app_assoc | done |].
      rewrite elem_of_app, list_elem_of_singleton. naive_solver.
Qed.

Lemma tree_after_snoc us u :
  tree_after (us ++ [u]) = menu_step (tree_after us) (update_command u).
Proof. unfold tree_after, menu_run. by rewrite fmap_app, fold_left_app. Qed.

Lemma tree_after_invariant us :
  BST (tree_after us)
  ∧ ∀ key, key ∈ keys (tree_after us) ↔ inserted_not_deleted us key.
Proof.
  induction us as [|u us [IHb IHk]] using rev_ind.
  - split; [done|]. intros key. split; [set_solver|].
    intros (pre & u & post & Heq & _). by destruct pre.
  - rewrite tree_after_snoc. split.
    + destruct u as [k|k|k]; cbn [update_command menu_step].
      * by apply BST_insert_recursive.
      * rewrite insert_iterative_recursive. by apply BST_insert_recursive.
      * by apply BST_deleteNode.
    + intros key. rewrite inserted_not_deleted_snoc, <- IHk. unfold inserts.
      destruct u as [k|k|k]; cbn [update_command menu_step];
        rewrite ?insert_iterative_recursive, ?keys_insert_recursive,
          ?keys_deleteNode by done;
        set_unfold; naive_solver.
Qed.

(** C6.  After any sequence of inserts and deletes applied to the empty tree
    the in-order sequence is strictly ascending, holds exactly once each key
    that was inserted and not deleted afterwards, and holds no other key. *)
Theorem inorder_after_updates (us : list update) :
  StronglySorted Z.lt (inorder (tree_after us))
  ∧ ∀ key,
      (inserted_not_deleted us key →
       count_occ Z.eq_dec (inorder (tree_after us)) key = 1%nat)
      ∧ (¬ inserted_not_deleted us key →
         count_occ Z.eq_dec (inorder (tree_after us)) key = 0%nat).
Proof.
  destruct (tree_after_invariant us) as [Hb Hk].
  split; [by apply BST_inorder_sorted|].
  intros key. rewrite <- Hk, <- elem_of_inorder, list_elem_of_In. split.
  - apply NoDup_count_occ', NoDup_ListNoDup. by apply BST_inorder_NoDup.
  - apply count_occ_not_In.
Qed.

Lemma inorder_after_updates_witness :
  count_occ Z.eq_dec
    (inorder (tree_after [UInsertRecursive 5; UInsertIterative 3; UDelete 5;
                          UInsertIterative 5; UInsertRecursive 3; UDelete 9]))
    5 = 1%nat.
Proof.
  apply (proj2 (inorder_after_updates
           [UInsertRecursive 5; UInsertIterative 3; UDelete 5;
            UInsertIterative 5; UInsertRecursive 3; UDelete 9]) 5).
  exists [UInsertRecursive 5; UInsertIterative 3; UDelete 5],
    (UInsertIterative 5), [UInsertRecursive 3; UDelete 9].
  split_and!; [reflexivity | by right |].
  intros Hin. repeat (apply elem_of_cons in Hin as [Hin|Hin]; [discriminate|]).
  by apply elem_of_nil in Hin.
Defined.

(** ** Neighbour queries *)

Section filter_facts.
Context (P : Z → Prop) `{!∀ x, Decision (P x)}.

Lemma filter_all (l : list Z) : (∀ x, x ∈ l → P x) → filter P l = l.
Proof.
  induction l as [|x l IH]; intros Hall; [done|].
  rewrite filter_cons_True by (apply Hall; left).
  f_equal. apply IH. intros y Hy. apply Hall. by right.
Qed.

Lemma filter_none (l : list Z) : (∀ x, x ∈ l → ¬ P x) → filter P l = [].
Proof.
  induction l as [|x l IH]; intros Hall; [done|].
  rewrite filter_cons_False by (apply Hall; left).
  apply IH. intros y Hy. apply Hall. by right.
Qed.

Lemma StronglySorted_lt_filter (l : list Z) :
  StronglySorted Z.lt l → StronglySorted Z.lt (filter P l).
Proof.
  induction 1 as [|x l _ IH Hx]; [constructor|].
  rewrite filter_cons. case_decide; [|done].
  constructor; [done|]. rewrite Forall_forall in Hx |- *.
  intros y [_ Hy]%list_elem_of_filter. by apply Hx.
Qed.
End filter_facts.

Lemma inorder_Node_nonempty k l r : inorder (Node k l r) ≠ [].
Proof. simpl. by destruct (inorder l). Qed.

Lemma rightmost_key t : node_key (rightmost t) = last (inorder t).
Proof.
  induction t as [|k l _ r IHr]; [done|]. cbn [rightmost inorder].
  rewrite last_app_cons, last_cons. destruct r as [|rk rl rr]; [done|].
  rewrite IHr. pose proof (inorder_Node_nonempty rk rl rr) as Hne.
  apply last_is_Some in Hne as [x Hx]. by rewrite Hx.
Qed.

Lemma leftmost_key t : node_key (leftmost t) = head (inorder t).
Proof.
  induction t as [|k l IHl r _]; [done|]. cbn [leftmost inorder].
  rewrite head_app. destruct l as [|lk ll lr]; [done|].
  rewrite IHl. pose proof (inorder_Node_nonempty lk ll lr) as Hne.
  destruct (inorder (Node lk ll lr)); done.
Qed.

Lemma predecessor_loop_spec cur pred key :
  BST cur →
  node_key (predecessor_loop cur pred key)
  = match list_predecessor (inorder cur) key with
    | Some p => Some p
    | None => node_key pred
    end.
Proof.
  unfold list_predecessor. revert pred.
  induction cur as [|k l IHl r IHr]; intros pred; [done|].
  intros (Hl & Hr & Bl & Br). cbn [predecessor_loop inorder].
  rewrite filter_app, filter_cons.
  assert (∀ x, x ∈ inorder l → x < k) as Hl'
    by (intros x Hx%elem_of_inorder; by apply Hl).
  assert (∀ x, x ∈ inorder r → k < x) as Hr'
    by (intros x Hx%elem_of_inorder; by apply Hr).
  destruct (Z.lt_total key k) as [Hlt | [-> | Hgt]].
  - repeat (case_decide; try lia).
    rewrite (filter_none _ (inorder r)), app_nil_r
      by (intros x Hx%Hr'; lia).
    by apply IHl.
  - repeat (case_decide; try lia).
    rewrite (filter_none _ (inorder r)), app_nil_r
      by (intros x Hx%Hr'; lia).
    rewrite filter_all by done.
    destruct l as [|lk ll lr]; [done|].
    rewrite rightmost_key.
    pose proof (inorder_Node_nonempty lk ll lr) as Hne.
    apply last_is_Some in Hne as [x Hx]. by rewrite Hx.
  - repeat (case_decide; try lia).
    rewrite last_app_cons, last_cons, IHr by done.
    by destruct (last (filter _ (inorder r))).
Qed.

Lemma successor_loop_spec cur succ key :
  BST cur →
  node_key (successor_loop cur succ key)
  = match list_successor (inorder cur) key with
    | Some s => Some s
    | None => node_key succ
    end.
Proof.
  unfold list_successor. revert succ.
  induction cur as [|k l IHl r IHr]; intros succ; [done|].
  intros (Hl & Hr & Bl & Br). cbn [successor_loop inorder].
  rewrite filter_app, filter_cons.
  assert (∀ x, x ∈ inorder l → x < k) as Hl'
    by (intros x Hx%elem_of_inorder; by apply Hl).
  assert (∀ x, x ∈ inorder r → k < x) as Hr'
    by (intros x Hx%elem_of_inorder; by apply Hr).
  destruct (Z.lt_total key k) as [Hlt | [-> | Hgt]].
  - repeat (case_decide; try lia).
    rewrite head_app, IHl by done.
    by destruct (head (filter _ (inorder l))).
  - repeat (case_decide; try lia).
    rewrite (filter_none _ (inorder l)) by (intros x Hx%Hl'; lia).
    rewrite filter_all by done. cbn [app].
    destruct r as [|rk rl rr]; [done|].
    rewrite leftmost_key.
    pose proof (inorder_Node_nonempty rk rl rr) as Hne.
    destruct (inorder (Node rk rl rr)); done.
  - repeat (case_decide; try lia).
    rewrite (filter_none _ (inorder l)) by (intros x Hx%Hl'; lia).
    cbn [app]. by apply IHr.
Qed.

Lemma list_predecessor_greatest t key :
  BST t → greatest_below (keys t) key (list_predecessor (inorder t) key).
Proof.
  intros Ht%BST_inorder_sorted. unfold list_predecessor, greatest_below.
  pose proof (StronglySorted_lt_filter (λ x, x < key) _ Ht) as Hs.
  destruct (last _) as [p|] eqn:Hlast.
  - apply last_Some in Hlast as [l' Hl'].
    assert (p ∈ filter (λ x, x < key) (inorder t)) as Hp
      by (rewrite Hl'; set_solver).
    apply list_elem_of_filter in Hp as [Hpk Hp%elem_of_inorder].
    split_and!; [done..|]. intros x Hx%elem_of_inorder Hxk.
    assert (x ∈ l' ++ [p]) as Hx'
      by (rewrite <- Hl'; by apply list_elem_of_filter).
    apply elem_of_app in Hx' as [Hx' | ->%list_elem_of_singleton]; [|lia].
    rewrite Hl' in Hs.
    assert (x < p); [|lia].
    apply (StronglySorted_app_1_elem_of _ _ _ _ _ Hs Hx'). set_solver.
  - apply last_None in Hlast. intros x Hx%elem_of_inorder Hxk.
    by apply (filter_nil_not_elem_of _ _ x Hlast).
Qed.

Lemma list_successor_least t key :
  BST t → least_above (keys t) key (list_successor (inorder t) key).
Proof.
  intros Ht%BST_inorder_sorted. unfold list_successor, least_above.
  pose proof (StronglySorted_lt_filter (λ x, key < x) _ Ht) as Hs.
  destruct (filter _ _) as [|s l'] eqn:Hf; cbn [head].
  - intros x Hx%elem_of_inorder Hxk.
    by apply (filter_nil_not_elem_of _ _ x Hf).
  - assert (s ∈ filter (λ x, key < x) (inorder t)) as Hp
      by (rewrite Hf; set_solver).
    apply list_elem_of_filter in Hp as [Hpk Hp%elem_of_inorder].
    split_and!; [done..|]. intros x Hx%elem_of_inorder Hxk.
    assert (x ∈ s :: l') as Hx'
      by (rewrite <- Hf; by apply list_elem_of_filter).
    apply elem_of_cons in Hx' as [->|Hx']; [lia|].
    apply StronglySorted_inv in Hs as [_ Hall].
    rewrite Forall_forall in Hall. specialize (Hall _ Hx'). lia.
Qed.

(** C8.  On a search tree, for a key that is in the tree or not,
    [predecessor] returns the node holding the largest key strictly below the
    query and [successor] the node holding the smallest key strictly above
    it, that is the neighbours of the query in the ascending list of the
    tree's keys; each returns [NULL] exactly when there is no such key. *)
Theorem neighbor_queries_correct t key :
  BST t →
  node_key (predecessor t key) = list_predecessor (inorder t) key
  ∧ node_key (successor t key) = list_successor (inorder t) key
  ∧ greatest_below (keys t) key (node_key (predecessor t key))
  ∧ least_above (keys t) key (node_key (successor t key)).
Proof.
  intros Ht.
  assert (node_key (predecessor t key) = list_predecessor (inorder t) key) as Hp.
  { unfold predecessor. rewrite predecessor_loop_spec by done.
    by destruct (list_predecessor _ _). }
  assert (node_key (successor t key) = list_successor (inorder t) key) as Hs.
  { unfold successor. rewrite successor_loop_spec by done.
    by destruct (list_successor _ _). }
  rewrite Hp, Hs.
  auto using list_predecessor_greatest, list_successor_least.
Qed.

Lemma neighbor_queries_correct_witness :
  node_key (predecessor scenario_tree 60) = Some 50
  ∧ node_key (successor scenario_tree 60) = Some 70
  ∧ node_key (predecessor scenario_tree 45) = Some 40
  ∧ node_key (successor scenario_tree 80) = None.
Proof.
  pose proof (neighbor_queries_correct scenario_tree 60 scenario_tree_BST)
    as (H1 & H2 & _).
  pose proof (neighbor_queries_correct scenario_tree 45 scenario_tree_BST)
    as (H3 & _).
  pose proof (neighbor_queries_correct scenario_tree 80 scenario_tree_BST)
    as (_ & H4 & _).
  rewrite H1, H2, H3, H4. by vm_compute.
Defined.

(** ** Statistics *)

Lemma int_wrap_id z : is_int z → int_wrap z = z.
Proof.
  unfold is_int, INT_MIN, INT_MAX, int_wrap. intros Hz.
  rewrite Z.mod_small; lia.
Qed.

Lemma spec_statistics_bounds t :
  0 ≤ spec_height t ≤ spec_count t ∧ 0 ≤ spec_leafCount t ≤ spec_count t.
Proof.
  induction t as [|k l IHl r IHr]; [simpl; lia|].
  cbn [spec_height spec_count].
  split; [lia|]. destruct l, r; cbn [spec_leafCount spec_count] in *; lia.
Qed.

(** While the number of nodes fits an [int] no addition of the three
    functions leaves the range, and they compute the specification's
    statistics. *)
Lemma statistics_refine t :
  spec_count t ≤ INT_MAX →
  height t = spec_height t ∧ count_nodes t = spec_count t
  ∧ count_leaves t = spec_leafCount t.
Proof.
  induction t as [|k l IHl r IHr]; [done|].
  cbn [spec_count]. intros Hfit.
  pose proof (spec_statistics_bounds l) as [Hhl Hll].
  pose proof (spec_statistics_bounds r) as [Hhr Hlr].
  destruct IHl as (Hl1 & Hl2 & Hl3); [lia|].
  destruct IHr as (Hr1 & Hr2 & Hr3); [lia|].
  assert (INT_MIN ≤ 0) by (unfold INT_MIN; lia).
  split_and!.
  - cbn [height spec_height]. rewrite Hl1, Hr1. unfold int_add.
    rewrite int_wrap_id by (unfold is_int; case_decide; lia).
    case_decide; lia.
  - cbn [count_nodes spec_count]. rewrite Hl2, Hr2. unfold int_add.
    rewrite (int_wrap_id (1 + _)) by (unfold is_int; lia).
    rewrite int_wrap_id by (unfold is_int; lia). lia.
  - assert (int_add (count_leaves l) (count_leaves r)
            = spec_leafCount l + spec_leafCount r) as Hsum.
    { rewrite Hl3, Hr3. unfold int_add.
      rewrite int_wrap_id by (unfold is_int; lia). lia. }
    destruct l as [|lk ll lr], r as [|rk rl rr]; try done; exact Hsum.
Qed.

(** C9.  The three statistics obey the stated equations: all are 0 on the
    empty tree; on a node the height is one more than the larger of the
    children's heights, the count one more than the sum of the children's
    counts, and the leaf count 1 when both children are absent and the sum of
    the children's leaf counts otherwise.  The functions return [int]; the
    equations are those of the integers as long as the number of nodes is at
    most [INT_MAX]. *)
Theorem statistics_equations :
  (height NULL = 0 ∧ count_nodes NULL = 0 ∧ count_leaves NULL = 0)
  ∧ ∀ k l r,
      spec_count (Node k l r) ≤ INT_MAX →
      height (Node k l r) = 1 + Z.max (height l) (height r)
      ∧ count_nodes (Node k l r) = 1 + count_nodes l + count_nodes r
      ∧ (l = NULL ∧ r = NULL → count_leaves (Node k l r) = 1)
      ∧ (¬ (l = NULL ∧ r = NULL) →
         count_leaves (Node k l r) = count_leaves l + count_leaves r).
Proof.
  split; [done|]. intros k l r Hfit.
  destruct (statistics_refine _ Hfit) as (Hh & Hc & Hlf).
  pose proof (spec_statistics_bounds l) as [_ Hbl].
  pose proof (spec_statistics_bounds r) as [_ Hbr].
  cbn [spec_count] in Hfit.
  destruct (statistics_refine l) as (Hhl & Hcl & Hll); [lia|].
  destruct (statistics_refine r) as (Hhr & Hcr & Hlr); [lia|].
  rewrite Hh, Hc, Hlf, Hhl, Hhr, Hcl, Hcr, Hll, Hlr.
  split_and!; try done.
  - by intros [-> ->].
  - intros Hnot. destruct l, r; try done. by destruct Hnot.
Qed.

Lemma statistics_equations_witness :
  height scenario_tree = 3 ∧ count_nodes scenario_tree = 7
  ∧ count_leaves scenario_tree = 4.
Proof.
  pose proof (proj2 statistics_equations 50
                (Node 30 (Node 20 NULL NULL) (Node 40 NULL NULL))
                (Node 70 (Node 60 NULL NULL) (Node 80 NULL NULL)))
    as (Hh & Hc & _ & Hl).
  { by vm_compute. }
  change scenario_tree
    with (Node 50 (Node 30 (Node 20 NULL NULL) (Node 40 NULL NULL))
                  (Node 70 (Node 60 NULL NULL) (Node 80 NULL NULL))).
  rewrite Hh, Hc, Hl by (by intros [? _]). by vm_compute.
Defined.

(** ** The codec: characters and numbers *)

Lemma ord_chr n : (n < 256)%N → ord (chr n) = Z.of_N n.
Proof. intros Hn. unfold ord, chr. by rewrite N_ascii_embedding. Qed.

Lemma uint_chars_digits d : Forall is_digit (uint_chars d).
Proof.
  induction d; simpl; constructor; try done;
    unfold is_digit; rewrite ord_chr by done; lia.
Qed.

Lemma length_uint_chars d : length (uint_chars d) = Decimal.nb_digits d.
Proof. induction d; simpl; by f_equal. Qed.

Lemma digit_val_chr n :
  (48 ≤ n ≤ 57)%N → digit_val (chr n) = Some (Z.of_N n - 48).
Proof.
  intros Hn. unfold digit_val, is_digit. rewrite ord_chr by lia.
  case_decide; [done|lia].
Qed.

Lemma digits_val_uint_acc d (acc : positive) rest :
  digits_val (Z.pos acc) (uint_chars d ++ rest)
  = digits_val (Z.pos (Pos.of_uint_acc d acc)) rest.
Proof.
  revert acc. induction d; intros acc; [done|..];
    cbn [uint_chars app digits_val Pos.of_uint_acc];
    rewrite digit_val_chr by lia; rewrite <- IHd; f_equal; lia.
Qed.

Lemma digits_val_uint d rest :
  digits_val 0 (uint_chars d ++ rest) = digits_val (Z.of_N (Pos.of_uint d)) rest.
Proof.
  induction d; [done|..];
    cbn [uint_chars app digits_val Pos.of_uint];
    rewrite digit_val_chr by lia; try apply IHd;
    apply (digits_val_uint_acc d _ rest).
Qed.

Lemma digits_val_stop v s : no_digit_ahead s → digits_val v s = v.
Proof.
  destruct s as [|c s]; [done|]. simpl. unfold digit_val.
  intros Hc. by case_decide.
Qed.

Lemma is_digit_not_space c : is_digit c → isspace c = false.
Proof.
  unfold is_digit, isspace. intros Hc.
  apply bool_decide_eq_false. lia.
Qed.

Lemma is_digit_not_sign c : is_digit c → c ≠ MINUS ∧ c ≠ PLUS.
Proof.
  unfold is_digit. intros Hc.
  split; intros ->; vm_compute in Hc; destruct Hc as [H1 H2];
    by (apply H1 || apply H2).
Qed.

Lemma is_digit_not_NUL c : is_digit c → c ≠ NUL.
Proof.
  unfold is_digit. intros Hc ->. vm_compute in Hc. destruct Hc as [H1 _].
  by apply H1.
Qed.

Lemma is_digit_not_HASH c : is_digit c → c ≠ HASH.
Proof.
  unfold is_digit. intros Hc ->. vm_compute in Hc. destruct Hc as [H1 _].
  by apply H1.
Qed.

(** The digits of a positive number: at least one, and as a numeral they
    denote the number. *)
Lemma uint_chars_pos (p : positive) :
  ∃ c s, uint_chars (Pos.to_uint p) = c :: s ∧ is_digit c ∧ Forall is_digit s.
Proof.
  pose proof (uint_chars_digits (Pos.to_uint p)) as Hd.
  pose proof (DecimalPos.Unsigned.to_uint_nonnil p) as Hnil.
  destruct (Pos.to_uint p) eqn:E; [done|..]; simpl in *;
    apply Forall_cons in Hd as [? ?]; eauto.
Qed.

Lemma digits_val_pos (p : positive) rest :
  no_digit_ahead rest →
  digits_val 0 (uint_chars (Pos.to_uint p) ++ rest) = Z.pos p.
Proof.
  intros Hrest.
  by rewrite digits_val_uint, DecimalPos.Unsigned.of_to, digits_val_stop.
Qed.

Lemma clamp_long_int z :
  is_int z → Z.max LONG_MIN (Z.min LONG_MAX z) = z.
Proof. unfold is_int, INT_MIN, INT_MAX, LONG_MIN, LONG_MAX. lia. Qed.

(** [atoi] reads back what [%d] printed, whatever follows the digits. *)
Lemma atoi_print_int z rest :
  is_int z → no_digit_ahead rest → atoi (print_int z ++ rest) = z.
Proof.
  intros Hz Hrest. unfold atoi, strtol, print_int.
  destruct z as [|p|p]; cbn [Z.to_int].
  - change (uint_chars (Pos.to_uint 1)) with [chr 49].
    change (uint_chars Decimal.zero) with [chr 48].
    cbn [app skip_space]. rewrite is_digit_not_space by (by vm_compute).
    destruct (is_digit_not_sign (chr 48)) as [? ?]; [by vm_compute|].
    do 2 (case_decide; [done|]).
    cbn [digits_val]. rewrite digit_val_chr by lia.
    rewrite digits_val_stop by done. by vm_compute.
  - destruct (uint_chars_pos p) as (c & s & Heq & Hc & Hs).
    pose proof (digits_val_pos p rest Hrest) as Hval.
    rewrite Heq in Hval |- *. cbn [app skip_space].
    rewrite is_digit_not_space by done.
    destruct (is_digit_not_sign c Hc) as [? ?].
    do 2 (case_decide; [done|]).
    cbn [app] in Hval. rewrite Hval, clamp_long_int by done.
    by apply int_wrap_id.
  - cbn [app skip_space].
    assert (isspace MINUS = false) as -> by (by vm_compute).
    case_decide; [|done].
    rewrite digits_val_pos by done.
    rewrite clamp_long_int by done. by apply int_wrap_id.
Qed.

(** *** The width of a printed [int] *)

Lemma of_uint_acc_lower d (acc : positive) :
  Z.pos acc * 10 ^ Z.of_nat (Decimal.nb_digits d) ≤ Z.pos (Pos.of_uint_acc d acc).
Proof.
  revert acc. induction d; intros acc;
    cbn [Decimal.nb_digits Pos.of_uint_acc]; [lia|..];
    rewrite Nat2Z.inj_succ, Z.pow_succ_r by lia;
    (etrans; [|apply IHd]);
    assert (0 < 10 ^ Z.of_nat (Decimal.nb_digits d)) by (apply Z.pow_pos_nonneg; lia);
    nia.
Qed.

Lemma to_uint_leading_digit p :
  match Pos.to_uint p with
  | Decimal.Nil | Decimal.D0 _ => False
  | _ => True
  end.
Proof.
  pose proof (DecimalPos.Unsigned.of_to p) as Hof.
  pose proof (DecimalPos.Unsigned.to_uint_nonnil p) as Hnil.
  pose proof (DecimalPos.Unsigned.to_uint_nonzero p) as Hzero.
  destruct (Pos.to_uint p) as [|u| | | | | | | | | ] eqn:E; try done.
  cbn [Pos.of_uint] in Hof.
  pose proof (DecimalPos.Unsigned.to_of u) as Hto.
  rewrite Hof in Hto. cbn [N.to_uint] in Hto. rewrite E in Hto.
  assert (u ≠ Decimal.Nil) as Hu by (by intros ->).
  pose proof (DecimalFacts.nb_digits_unorm u Hu) as Hlen.
  rewrite <- Hto in Hlen. cbn [Decimal.nb_digits] in Hlen. lia.
Qed.

Lemma length_uint_chars_pos (p : positive) :
  Z.pos p ≤ 2 ^ 31 → (length (uint_chars (Pos.to_uint p)) ≤ 10)%nat.
Proof.
  intros Hp. rewrite length_uint_chars.
  pose proof (DecimalPos.Unsigned.of_to p) as Hof.
  pose proof (to_uint_leading_digit p) as Hlead.
  destruct (Pos.to_uint p) as [|u|u|u|u|u|u|u|u|u|u]; try done;
    cbn [Pos.of_uint] in Hof; injection Hof as Hof;
    cbn [Decimal.nb_digits];
    match type of Hof with
    | Pos.of_uint_acc _ ?k = _ => pose proof (of_uint_acc_lower u k) as Hlow
    end;
    rewrite Hof in Hlow;
    destruct (decide (Decimal.nb_digits u < 10)%nat) as [|Hbig]; try lia;
    assert (10 ^ 10 ≤ 10 ^ Z.of_nat (Decimal.nb_digits u))
      by (apply Z.pow_le_mono_r; lia);
    lia.
Qed.

Lemma length_print_int z : is_int z → (length (print_int z) ≤ 11)%nat.
Proof.
  unfold is_int, INT_MIN, INT_MAX, print_int. intros Hz.
  destruct z as [|p|p]; cbn [Z.to_int length].
  - vm_compute. lia.
  - pose proof (length_uint_chars_pos p). lia.
  - pose proof (length_uint_chars_pos p). lia.
Qed.

Lemma print_int_word z : is_int z → is_word (print_int z) ∧ print_int z ≠ [HASH].
Proof.
  intros Hz. pose proof (length_print_int z Hz) as Hlen.
  assert (Forall (λ c, isspace c = false ∧ c ≠ NUL) (print_int z)
          ∧ ∃ c s, print_int z = c :: s ∧ c ≠ HASH) as [Hall (c & s & Heq & Hc)].
  { assert (∀ l, Forall is_digit l →
                 Forall (λ c, isspace c = false ∧ c ≠ NUL) l) as Hdig.
    { intros l Hl. eapply Forall_impl; [exact Hl|]. intros c Hc.
      split; [by apply is_digit_not_space | by apply is_digit_not_NUL]. }
    unfold print_int. destruct z as [|p|p]; cbn [Z.to_int].
    - split; [|by exists (chr 48), []].
      apply Hdig, uint_chars_digits.
    - split; [apply Hdig, uint_chars_digits|].
      destruct (uint_chars_pos p) as (c & s & -> & Hc & _).
      exists c, s. split; [done|]. by apply is_digit_not_HASH.
    - split; [|by exists MINUS, (uint_chars (Pos.to_uint p))].
      constructor; [by split|]. apply Hdig, uint_chars_digits. }
  split; [|rewrite Heq; by intros [= -> _]].
  split_and!; [by rewrite Heq | done | lia].
Qed.

(** ** The codec: reading words *)

Lemma skip_space_length fp : (length (skip_space fp) ≤ length fp)%nat.
Proof. induction fp as [|c fp IH]; simpl; [done|]. destruct (isspace c); simpl; lia. Qed.

Lemma read_word_length w fp : (length (read_word w fp).2 ≤ length fp)%nat.
Proof.
  revert fp. induction w as [|w IH]; intros [|c fp]; simpl; try done.
  destruct (isspace c); simpl; [done|].
  specialize (IH fp). destruct (read_word w fp). simpl in *. lia.
Qed.

Lemma read_word_S w c fp :
  isspace c = false →
  read_word (S w) (c :: fp) = (c :: (read_word w fp).1, (read_word w fp).2).
Proof. intros Hc. cbn [read_word]. rewrite Hc. by destruct (read_word w fp). Qed.

Lemma skip_space_head fp c fp' : skip_space fp = c :: fp' → isspace c = false.
Proof.
  induction fp as [|c' fp IH]; [done|]. simpl.
  destruct (isspace c') eqn:Ec'; [done|]. by intros [= -> _].
Qed.

Lemma fscanf_s63_None fp fp1 :
  fscanf_s63 fp = (None, fp1) → skip_space fp = [] ∧ fp1 = [].
Proof.
  unfold fscanf_s63. destruct (skip_space fp) as [|c fp']; [by intros [= <-]|].
  by destruct (read_word 63 (c :: fp')).
Qed.

Lemma fscanf_s63_Some fp buf fp1 :
  fscanf_s63 fp = (Some buf, fp1) → (length fp1 < length fp)%nat.
Proof.
  unfold fscanf_s63. pose proof (skip_space_length fp) as Hskip.
  destruct (skip_space fp) as [|c fp'] eqn:E; [done|].
  apply skip_space_head in E.
  change 63%nat with (S 62). rewrite read_word_S by done.
  pose proof (read_word_length 62 fp') as Hlen.
  intros Heq. apply (f_equal snd) in Heq. cbn [snd] in Heq. subst fp1.
  cbn [length] in Hskip. lia.
Qed.

Lemma fscanf_s63_skip c fp :
  isspace c = true → fscanf_s63 (c :: fp) = fscanf_s63 fp.
Proof. intros Hc. unfold fscanf_s63. simpl. by rewrite Hc. Qed.

Lemma read_word_word w tok rest :
  Forall (λ c, isspace c = false ∧ c ≠ NUL) tok → (length tok ≤ w)%nat →
  word_boundary rest → read_word w (tok ++ rest) = (tok, rest).
Proof.
  intros Htok. revert w.
  induction Htok as [|c tok [Hc _] _ IH]; intros w Hlen Hrest.
  - destruct w, rest as [|c rest]; simpl in *; try done. by rewrite Hrest.
  - destruct w as [|w]; cbn [length] in Hlen; [lia|].
    cbn [app]. rewrite read_word_S, IH by (done || lia). done.
Qed.

Lemma fscanf_s63_word tok rest :
  is_word tok → word_boundary rest →
  fscanf_s63 (tok ++ rest) = (Some tok, rest).
Proof.
  intros (Hne & Htok & Hlen) Hrest. unfold fscanf_s63.
  destruct tok as [|c tok]; [done|].
  pose proof (Forall_inv Htok) as [Hc _].
  cbn [app skip_space]. rewrite Hc.
  change (c :: tok ++ rest) with ((c :: tok) ++ rest).
  by rewrite (read_word_word 63 (c :: tok) rest).
Qed.

Lemma c_string_word tok :
  Forall (λ c, isspace c = false ∧ c ≠ NUL) tok → c_string tok = tok.
Proof.
  induction 1 as [|c tok [_ Hc] _ IH]; simpl; [done|].
  case_decide; [done|]. by rewrite IH.
Qed.

(** ** The codec: loading *)

Lemma load_fuel_skip n c fp :
  isspace c = true → load_fuel n (c :: fp) = load_fuel n fp.
Proof. intros Hc. destruct n; simpl; [done|]. by rewrite fscanf_s63_skip. Qed.

Lemma load_fuel_mono n m fp res :
  load_fuel n fp = Some res → (n ≤ m)%nat → load_fuel m fp = Some res.
Proof.
  revert m fp res. induction n as [|n IH]; intros m fp res; [done|].
  intros Hload Hle. destruct m as [|m]; [lia|].
  cbn [load_fuel] in *.
  destruct (fscanf_s63 fp) as [[buf|] fp1]; [|done].
  case_decide; [done|].
  destruct (load_fuel n fp1) as [[l fp2]|] eqn:El; [|done].
  rewrite (IH m _ _ El) by lia.
  destruct (load_fuel n fp2) as [[r fp3]|] eqn:Er; [|done].
  by rewrite (IH m _ _ Er) by lia.
Qed.

Lemma load_fuel_total n fp :
  (length fp < n)%nat →
  ∃ t rest, load_fuel n fp = Some (t, rest) ∧ (length rest ≤ length fp)%nat.
Proof.
  revert fp. induction n as [|n IH]; intros fp Hlen; [lia|].
  cbn [load_fuel].
  destruct (fscanf_s63 fp) as [[buf|] fp1] eqn:Escan.
  - apply fscanf_s63_Some in Escan.
    case_decide; [exists NULL, fp1; split; [done|lia]|].
    destruct (IH fp1) as (l & fp2 & -> & Hl); [lia|].
    destruct (IH fp2) as (r & fp3 & -> & Hr); [lia|].
    eexists _, _. split; [done|lia].
  - apply fscanf_s63_None in Escan as [_ ->].
    exists NULL, []. split; [done|simpl; lia].
Qed.

(** The fuel [load_tree_preorder] starts with is never used up. *)
Lemma load_tree_preorder_total fp :
  ∃ t rest, load_tree_preorder fp = Some (t, rest)
            ∧ (length rest ≤ length fp)%nat.
Proof. apply load_fuel_total. lia. Qed.

Lemma load_fuel_enough n fp :
  (length fp < n)%nat → load_fuel n fp = load_tree_preorder fp.
Proof.
  intros Hlen. destruct (load_tree_preorder_total fp) as (t & rest & Hload & _).
  rewrite Hload. unfold load_tree_preorder in Hload.
  destruct (load_fuel_total n fp Hlen) as (t' & rest' & Hload' & _).
  rewrite Hload'.
  destruct (Nat.le_ge_cases n (S (length fp))) as [Hle|Hle].
  - apply (load_fuel_mono _ _ _ _ Hload') in Hle. congruence.
  - apply (load_fuel_mono _ _ _ _ Hload) in Hle. congruence.
Qed.

(** The unfolding of [load_tree_preorder] as the C function reads. *)
Lemma load_tree_preorder_eq fp :
  load_tree_preorder fp
  = match fscanf_s63 fp with
    | (None, fp1) => Some (NULL, fp1)
    | (Some buf, fp1) =>
        if decide (c_string buf = [HASH]) then Some (NULL, fp1)
        else
          match load_tree_preorder fp1 with
          | None => None
          | Some (l, fp2) =>
              match load_tree_preorder fp2 with
              | None => None
              | Some (r, fp3) => Some (Node (atoi (c_string buf)) l r, fp3)
              end
          end
    end.
Proof.
  unfold load_tree_preorder at 1. cbn [load_fuel].
  destruct (fscanf_s63 fp) as [[buf|] fp1] eqn:Escan; [|done].
  apply fscanf_s63_Some in Escan.
  case_decide; [done|].
  rewrite load_fuel_enough by lia.
  destruct (load_tree_preorder_total fp1) as (l & fp2 & -> & Hl).
  by rewrite load_fuel_enough by lia.
Qed.

Lemma load_tree_preorder_skip c fp :
  isspace c = true → load_tree_preorder (c :: fp) = load_tree_preorder fp.
Proof.
  intros Hc. rewrite (load_tree_preorder_eq (c :: fp)), fscanf_s63_skip by done.
  by rewrite <- load_tree_preorder_eq.
Qed.

Lemma int_keys_Node k l r :
  int_keys (Node k l r) → is_int k ∧ int_keys l ∧ int_keys r.
Proof.
  unfold int_keys. cbn [keys]. intros Hall.
  split_and!; [apply Hall | intros x Hx; apply Hall ..]; set_solver.
Qed.

Lemma isspace_SPACE : isspace SPACE = true.
Proof. by vm_compute. Qed.

Lemma is_word_HASH : is_word [HASH].
Proof.
  split_and!; [done | | simpl; lia].
  constructor; [|done]. split; [by vm_compute | done].
Qed.

(** Loading what [save_tree_preorder] wrote gives the tree back and stops
    after its last token, before whatever follows. *)
Lemma load_save t rest :
  int_keys t →
  load_tree_preorder (save_tree_preorder t ++ rest) = Some (t, SPACE :: rest).
Proof.
  revert rest. induction t as [|k l IHl r IHr]; intros rest Hint.
  - cbn [save_tree_preorder].
    change ([HASH; SPACE] ++ rest) with ([HASH] ++ SPACE :: rest).
    rewrite load_tree_preorder_eq.
    rewrite (fscanf_s63_word [HASH] (SPACE :: rest))
      by (apply is_word_HASH || apply isspace_SPACE).
    rewrite c_string_word by apply is_word_HASH.
    by case_decide.
  - apply int_keys_Node in Hint as (Hk & Hl & Hr).
    destruct (print_int_word k Hk) as [Hword Hhash].
    cbn [save_tree_preorder]. rewrite <- !app_assoc. cbn [app].
    rewrite load_tree_preorder_eq.
    rewrite fscanf_s63_word by (done || apply isspace_SPACE).
    rewrite c_string_word by apply Hword.
    case_decide; [done|].
    rewrite load_tree_preorder_skip, IHl by (done || apply isspace_SPACE).
    rewrite load_tree_preorder_skip, IHr by (done || apply isspace_SPACE).
    rewrite <- (app_nil_r (print_int k)), atoi_print_int; done.
Qed.

(** C2.  Deserialising the serialisation of a tree gives the same tree, node
    for node, hence the same sequence of keys and sentinels; so two trees
    with the same serialisation have the same shape.  The keys of the tree
    are [int]s, as in the C program. *)
Theorem load_save_roundtrip t :
  int_keys t →
  load_tree_preorder (save_tree_preorder t) = Some (t, [SPACE])
  ∧ (∀ t' rest,
       load_tree_preorder (save_tree_preorder t) = Some (t', rest) →
       t' = t ∧ save_tree_preorder t' = save_tree_preorder t)
  ∧ (∀ old, menu_step old (CmdLoad (Some (save_tree_preorder t))) = t)
  ∧ (∀ t2, int_keys t2 → save_tree_preorder t2 = save_tree_preorder t → t2 = t).
Proof.
  intros Hint. pose proof (load_save t [] Hint) as Hload.
  rewrite app_nil_r in Hload. split_and!.
  - done.
  - intros t' rest. rewrite Hload. by intros [= <- _].
  - intros old. cbn [menu_step]. by rewrite Hload.
  - intros t2 Hint2 Hsave. pose proof (load_save t2 [] Hint2) as Hload2.
    rewrite app_nil_r, Hsave, Hload in Hload2. by injection Hload2.
Qed.

Lemma load_save_roundtrip_witness :
  load_tree_preorder (save_tree_preorder scenario_tree)
  = Some (scenario_tree, [SPACE]).
Proof.
  apply (load_save_roundtrip scenario_tree).
  apply (bool_decide_unpack _). by vm_compute.
Defined.

(** ** The codec: streams that are not serialisations *)

Lemma atoi_no_number s : no_number s → atoi s = 0.
Proof.
  unfold no_number, atoi, strtol.
  destruct (skip_space s) as [|c s']; [done|].
  destruct (decide (c = MINUS)) as [->|Hm].
  - rewrite decide_True by auto. intros Hs.
    by rewrite digits_val_stop.
  - destruct (decide (c = PLUS)) as [->|Hp].
    + rewrite decide_True by auto. intros Hs.
      by rewrite digits_val_stop.
    + rewrite decide_False by (intros [?|?]; done). intros Hc.
      by rewrite (digits_val_stop 0 (c :: s')).
Qed.

(** Words as [fscanf] cuts them out of the stream. *)
Lemma read_word_nonspace w tok rest :
  Forall (λ c, isspace c = false) tok → (length tok ≤ w)%nat →
  word_boundary rest → read_word w (tok ++ rest) = (tok, rest).
Proof.
  intros Htok. revert w.
  induction Htok as [|c tok Hc _ IH]; intros w Hlen Hrest.
  - destruct w, rest as [|c rest]; simpl in *; try done. by rewrite Hrest.
  - destruct w as [|w]; cbn [length] in Hlen; [lia|].
    cbn [app]. rewrite read_word_S, IH by (done || lia). done.
Qed.

Lemma read_word_full w tok more :
  Forall (λ c, isspace c = false) tok → length tok = w →
  read_word w (tok ++ more) = (tok, more).
Proof.
  intros Htok. revert w.
  induction Htok as [|c tok Hc _ IH]; intros w Hlen.
  - cbn [length] in Hlen. subst w. by destruct more.
  - destruct w as [|w]; cbn [length] in Hlen; [lia|].
    cbn [app]. rewrite read_word_S, IH by (done || lia). done.
Qed.

Lemma fscanf_s63_nonspace tok rest :
  tok ≠ [] → Forall (λ c, isspace c = false) tok → (length tok ≤ 63)%nat →
  word_boundary rest → fscanf_s63 (tok ++ rest) = (Some tok, rest).
Proof.
  intros Hne Htok Hlen Hrest. unfold fscanf_s63.
  destruct tok as [|c tok]; [done|].
  pose proof (Forall_inv Htok) as Hc.
  cbn [app skip_space]. rewrite Hc.
  change (c :: tok ++ rest) with ((c :: tok) ++ rest).
  by rewrite (read_word_nonspace 63 (c :: tok) rest).
Qed.

Lemma fscanf_s63_full tok more :
  Forall (λ c, isspace c = false) tok → length tok = 63%nat →
  fscanf_s63 (tok ++ more) = (Some tok, more).
Proof.
  intros Htok Hlen. unfold fscanf_s63.
  destruct tok as [|c tok]; [done|].
  pose proof (Forall_inv Htok) as Hc.
  cbn [app skip_space]. rewrite Hc.
  change (c :: tok ++ more) with ((c :: tok) ++ more).
  by rewrite (read_word_full 63 (c :: tok) more).
Qed.

Lemma c_string_cut pre post :
  Forall (λ c, isspace c = false ∧ c ≠ NUL) pre →
  c_string (pre ++ NUL :: post) = pre.
Proof.
  induction 1 as [|c pre [_ Hc] _ IH]; cbn [app c_string].
  - by rewrite decide_True.
  - rewrite decide_False by done. by rewrite IH.
Qed.

Lemma load_tree_preorder_sentinel fp buf fp1 :
  fscanf_s63 fp = (Some buf, fp1) → c_string buf = [HASH] →
  load_tree_preorder fp = Some (NULL, fp1).
Proof.
  intros Hscan Hbuf. rewrite load_tree_preorder_eq, Hscan. by rewrite decide_True.
Qed.

Lemma load_tree_preorder_key fp buf fp1 :
  fscanf_s63 fp = (Some buf, fp1) → c_string buf ≠ [HASH] →
  ∃ l fp2 r fp3,
    load_tree_preorder fp1 = Some (l, fp2)
    ∧ load_tree_preorder fp2 = Some (r, fp3)
    ∧ load_tree_preorder fp = Some (Node (atoi (c_string buf)) l r, fp3).
Proof.
  intros Hscan Hbuf.
  destruct (load_tree_preorder_total fp1) as (l & fp2 & Hl & _).
  destruct (load_tree_preorder_total fp2) as (r & fp3 & Hr & _).
  exists l, fp2, r, fp3. split_and!; [done..|].
  rewrite load_tree_preorder_eq, Hscan, decide_False by done.
  by rewrite Hl, Hr.
Qed.

Lemma load_tree_preorder_end fp :
  skip_space fp = [] → load_tree_preorder fp = Some (NULL, []).
Proof.
  intros Hfp. rewrite load_tree_preorder_eq. unfold fscanf_s63. by rewrite Hfp.
Qed.

Lemma load_tree_preorder_word tok rest :
  is_word tok → tok ≠ [HASH] → word_boundary rest →
  ∃ l fp2 r fp3,
    load_tree_preorder rest = Some (l, fp2)
    ∧ load_tree_preorder fp2 = Some (r, fp3)
    ∧ load_tree_preorder (tok ++ rest) = Some (Node (atoi tok) l r, fp3).
Proof.
  intros Hword Hne Hrest.
  pose proof (fscanf_s63_word tok rest Hword Hrest) as Hscan.
  destruct Hword as (_ & Hall & _).
  pose proof (c_string_word tok Hall) as Hc.
  destruct (load_tree_preorder_key _ _ _ Hscan) as (l & fp2 & r & fp3 & H);
    [by rewrite Hc|].
  rewrite Hc in H. by exists l, fp2, r, fp3.
Qed.

Lemma print_int_head z : ∃ c s, print_int z = c :: s ∧ c ≠ HASH.
Proof.
  unfold print_int. destruct z as [|p|p]; cbn [Z.to_int].
  - by exists (chr 48), [].
  - destruct (uint_chars_pos p) as (c & s & -> & Hc & _).
    exists c, s. split; [done|]. by apply is_digit_not_HASH.
  - by exists MINUS, (uint_chars (Pos.to_uint p)).
Qed.

(** C10.  [load_tree_preorder] has no failing outcome: on every stream it
    returns a tree.  The end of the stream where a subtree is due gives the
    absent subtree, as the word [#] does; every other word gives a node whose
    key is [atoi] of the word, which is 0 when the word shows no number and
    the number in front of the word when it starts with one.  The words are
    those of the stream: white space separates them, a run of more than 63
    characters is cut after the 63rd, and a word counts up to its first NUL;
    a stream that ends after a key gives a node without children. *)
Theorem load_never_fails :
  (∀ fp, ∃ t rest, load_tree_preorder fp = Some (t, rest))
  ∧ (∀ fp, skip_space fp = [] → load_tree_preorder fp = Some (NULL, []))
  ∧ (∀ fp buf fp1,
       fscanf_s63 fp = (Some buf, fp1) → c_string buf = [HASH] →
       load_tree_preorder fp = Some (NULL, fp1))
  ∧ (∀ fp buf fp1,
       fscanf_s63 fp = (Some buf, fp1) → c_string buf ≠ [HASH] →
       ∃ l fp2 r fp3,
         load_tree_preorder fp1 = Some (l, fp2)
         ∧ load_tree_preorder fp2 = Some (r, fp3)
         ∧ load_tree_preorder fp = Some (Node (atoi (c_string buf)) l r, fp3))
  ∧ (∀ s, no_number s → atoi s = 0)
  ∧ (∀ z junk, is_int z → no_digit_ahead junk → atoi (print_int z ++ junk) = z)
  ∧ (∀ c fp, isspace c = true →
       load_tree_preorder (c :: fp) = load_tree_preorder fp)
  ∧ (∀ rest, word_boundary rest →
       load_tree_preorder (HASH :: rest) = Some (NULL, rest))
  ∧ (∀ tok rest, is_word tok → tok ≠ [HASH] → word_boundary rest →
       ∃ l fp2 r fp3,
         load_tree_preorder rest = Some (l, fp2)
         ∧ load_tree_preorder fp2 = Some (r, fp3)
         ∧ load_tree_preorder (tok ++ rest) = Some (Node (atoi tok) l r, fp3))
  ∧ (∀ tok, is_word tok → tok ≠ [HASH] →
       load_tree_preorder tok = Some (Node (atoi tok) NULL NULL, []))
  ∧ (∀ z junk rest,
       is_int z → no_digit_ahead junk → is_word (print_int z ++ junk) →
       word_boundary rest →
       ∃ l fp2 r fp3,
         load_tree_preorder rest = Some (l, fp2)
         ∧ load_tree_preorder fp2 = Some (r, fp3)
         ∧ load_tree_preorder ((print_int z ++ junk) ++ rest)
           = Some (Node z l r, fp3))
  ∧ (∀ tok rest, is_word tok → tok ≠ [HASH] → no_number tok →
       word_boundary rest →
       ∃ l fp2 r fp3,
         load_tree_preorder rest = Some (l, fp2)
         ∧ load_tree_preorder fp2 = Some (r, fp3)
         ∧ load_tree_preorder (tok ++ rest) = Some (Node 0 l r, fp3))
  ∧ (∀ tok more,
       Forall (λ c, isspace c = false ∧ c ≠ NUL) tok → length tok = 63%nat →
       ∃ l fp2 r fp3,
         load_tree_preorder more = Some (l, fp2)
         ∧ load_tree_preorder fp2 = Some (r, fp3)
         ∧ load_tree_preorder (tok ++ more) = Some (Node (atoi tok) l r, fp3))
  ∧ (∀ pre post rest,
       Forall (λ c, isspace c = false ∧ c ≠ NUL) pre →
       Forall (λ c, isspace c = false) post →
       (length (pre ++ NUL :: post) ≤ 63)%nat → word_boundary rest →
       (pre = [HASH] →
        load_tree_preorder ((pre ++ NUL :: post) ++ rest) = Some (NULL, rest))
       ∧ (pre ≠ [HASH] →
          ∃ l fp2 r fp3,
            load_tree_preorder rest = Some (l, fp2)
            ∧ load_tree_preorder fp2 = Some (r, fp3)
            ∧ load_tree_preorder ((pre ++ NUL :: post) ++ rest)
              = Some (Node (atoi pre) l r, fp3))).
Proof.
  split_and!.
  - intros fp. destruct (load_tree_preorder_total fp) as (t & rest & H & _). eauto.
  - apply load_tree_preorder_end.
  - apply load_tree_preorder_sentinel.
  - apply load_tree_preorder_key.
  - apply atoi_no_number.
  - apply atoi_print_int.
  - apply load_tree_preorder_skip.
  - intros rest Hrest.
    apply (load_tree_preorder_sentinel _ [HASH]).
    + apply (fscanf_s63_word [HASH] rest); [apply is_word_HASH | done].
    + apply c_string_word, is_word_HASH.
  - apply load_tree_preorder_word.
  - intros tok Hword Hne.
    destruct (load_tree_preorder_word tok [] Hword Hne I)
      as (l & fp2 & r & fp3 & Hl & Hr & Hload).
    rewrite load_tree_preorder_end in Hl by done. injection Hl as <- <-.
    rewrite load_tree_preorder_end in Hr by done. injection Hr as <- <-.
    by rewrite app_nil_r in Hload.
  - intros z junk rest Hz Hjunk Hword Hrest.
    destruct (print_int_head z) as (c & s & Heq & Hc).
    destruct (load_tree_preorder_word (print_int z ++ junk) rest)
      as (l & fp2 & r & fp3 & Hl & Hr & Hload); [done| |done|].
    { rewrite Heq. cbn [app]. by intros [= -> _]. }
    rewrite atoi_print_int in Hload by done. by exists l, fp2, r, fp3.
  - intros tok rest Hword Hne Hno Hrest.
    destruct (load_tree_preorder_word tok rest Hword Hne Hrest)
      as (l & fp2 & r & fp3 & Hl & Hr & Hload).
    rewrite atoi_no_number in Hload by done. by exists l, fp2, r, fp3.
  - intros tok more Htok Hlen.
    assert (Forall (λ c, isspace c = false) tok) as Hns
      by (eapply Forall_impl; [exact Htok|]; by intros c [? _]).
    pose proof (fscanf_s63_full tok more Hns Hlen) as Hscan.
    pose proof (c_string_word tok Htok) as Hc.
    destruct (load_tree_preorder_key _ _ _ Hscan) as (l & fp2 & r & fp3 & H).
    { rewrite Hc. intros ->. cbn in Hlen. lia. }
    rewrite Hc in H. by exists l, fp2, r, fp3.
  - intros pre post rest Hpre Hpost Hlen Hrest.
    assert (Forall (λ c, isspace c = false) (pre ++ NUL :: post)) as Hns.
    { apply Forall_app. split.
      - eapply Forall_impl; [exact Hpre|]. by intros c [? _].
      - constructor; [by vm_compute | done]. }
    assert (pre ++ NUL :: post ≠ []) as Hne by (by destruct pre).
    pose proof (fscanf_s63_nonspace _ rest Hne Hns Hlen Hrest) as Hscan.
    pose proof (c_string_cut pre post Hpre) as Hc.
    split.
    + intros Hhash. apply (load_tree_preorder_sentinel _ _ _ Hscan).
      by rewrite Hc.
    + intros Hhash.
      destruct (load_tree_preorder_key _ _ _ Hscan) as (l & fp2 & r & fp3 & H);
        [by rewrite Hc|].
      rewrite Hc in H. by exists l, fp2, r, fp3.
Qed.

Lemma load_never_fails_witness :
  load_tree_preorder ["x"; "7"]%char = Some (Node 0 NULL NULL, [])
  ∧ load_tree_preorder ["1"; "2"; "a"; "b"; "c"]%char
    = Some (Node 12 NULL NULL, [])
  ∧ load_tree_preorder ["#"; " "; "5"]%char = Some (NULL, [" "; "5"]%char).
Proof.
  destruct load_never_fails
    as (_ & Heof & _ & Hnode & Hzero & _ & _ & Hhash & _ & _ & Hnum & _).
  split_and!.
  - destruct (Hnode ["x"; "7"]%char ["x"; "7"]%char [])
      as (l & fp2 & r & fp3 & Hl & Hr & ->); [by vm_compute..|].
    rewrite Heof in Hl by done. injection Hl as <- <-.
    rewrite Heof in Hr by done. injection Hr as <- <-.
    rewrite Hzero; [done|]. vm_compute. intros [_ H]. by apply H.
  - destruct (Hnum 12 ["a"; "b"; "c"]%char [])
      as (l & fp2 & r & fp3 & Hl & Hr & Hload).
    + by vm_compute.
    + vm_compute. intros [_ H]. by apply H.
    + split_and!; [done | | cbn; lia].
      repeat (constructor; [split; [by vm_compute | done]|]). constructor.
    + done.
    + rewrite Heof in Hl by done. injection Hl as <- <-.
      rewrite Heof in Hr by done. injection Hr as <- <-.
      exact Hload.
  - apply (Hhash [" "; "5"]%char). by vm_compute.
Defined.

Lemma broken_stream_malformed : malformed broken_stream.
Proof.
  intros [rest Hnode]. vm_compute in Hnode.
  repeat match goal with
         | H : spec_node (_ :: _) _ |- _ => inversion H; clear H; subst
         | H : spec_node [] _ |- _ => inversion H
         end;
    match goal with
    | H : integer_token _ |- _ => vm_compute in H
    end;
    repeat match goal with
           | H : Forall _ (_ :: _) |- _ => apply Forall_cons in H as [? ?]
           | H : _ ∧ _ |- _ => destruct H
           end;
    try done;
    match goal with
    | H : (_ ?= _) = Gt → False |- _ => by apply H
    | H : (_ ?= _) ≠ Gt |- _ => by apply H
    | _ => idtac
    end.
Qed.

(** C3, as stated, fails: [broken_stream] shows a token that is neither [#]
    nor an integer and ends before the tree is complete, yet loading it over
    the scenario tree reports nothing and replaces the tree by the part that
    was built. *)
Lemma load_not_all_or_nothing :
  malformed broken_stream
  ∧ load_tree_preorder broken_stream
    = Some (Node 50 (Node 30 NULL (Node 0 NULL NULL)) NULL, [])
  ∧ menu_step scenario_tree (CmdLoad (Some broken_stream))
    = Node 50 (Node 30 NULL (Node 0 NULL NULL)) NULL
  ∧ menu_step scenario_tree (CmdLoad (Some broken_stream)) ≠ scenario_tree.
Proof.
  split; [exact broken_stream_malformed|].
  split_and!; by vm_compute.
Qed.

(** C3, amended.  Whatever the stream holds, [load_tree_preorder] returns a
    tree and nothing else, and choice 9 of the menu, which frees the old tree
    before it reads, makes that tree the root: the result does not depend on
    the tree being replaced.  The tree is left as it was only when the file
    cannot be opened. *)
Theorem load_replaces_tree :
  (∀ old fp, ∃ t rest,
     load_tree_preorder fp = Some (t, rest)
     ∧ menu_step old (CmdLoad (Some fp)) = t)
  ∧ (∀ old old' fp,
       menu_step old (CmdLoad (Some fp)) = menu_step old' (CmdLoad (Some fp)))
  ∧ (∀ old, menu_step old (CmdLoad None) = old).
Proof.
  split_and!; [|done..].
  intros old fp. destruct (load_tree_preorder_total fp) as (t & rest & Hload & _).
  exists t, rest. split; [done|]. cbn [menu_step]. by rewrite Hload.
Qed.

(** * Further properties of the program *)

(** Settles every comparison of keys in the goal that [lia] can settle. *)
Ltac compare_keys :=
  repeat match goal with
         | |- context [decide ?P] =>
             first [ rewrite (decide_True (P:=P)) by lia
                   | rewrite (decide_False (P:=P)) by lia ]
         end.

(** ** Search, and how insert and delete show in it *)

Lemma search_recursive_sound t key :
  search_recursive t key = NULL
  ∨ ∃ p l r, deref t p = Node key l r ∧ search_recursive t key = Node key l r.
Proof.
  induction t as [|k l IHl r IHr]; [by left|]. cbn [search_recursive].
  case_decide as Hk; [subst; right; by exists [], l, r|].
  case_decide.
  - destruct IHl as [->|(p & a & b & Hp & ->)]; [by left|].
    right. by exists (GoLeft :: p), a, b.
  - destruct IHr as [->|(p & a & b & Hp & ->)]; [by left|].
    right. by exists (GoRight :: p), a, b.
Qed.

(** X1.  On every tree [search_recursive] returns [NULL] or a node of the
    tree that holds the searched key, so a key that is found is a key of the
    tree; on a search tree it returns a node exactly when the key is one of
    the tree's keys. *)
Theorem search_recursive_correct t key :
  (search_recursive t key = NULL
   ∨ ∃ p l r, deref t p = Node key l r ∧ search_recursive t key = Node key l r)
  ∧ (search_recursive t key ≠ NULL → key ∈ keys t)
  ∧ (key ∉ keys t → search_recursive t key = NULL)
  ∧ (BST t →
     (search_recursive t key = NULL ∧ key ∉ keys t)
     ∨ (key ∈ keys t
        ∧ ∃ p l r, deref t p = Node key l r
                   ∧ search_recursive t key = Node key l r)).
Proof.
  split_and!.
  - apply search_recursive_sound.
  - apply search_recursive_elem.
  - apply search_recursive_absent.
  - intros Ht. destruct (decide (key ∈ keys t)) as [Hin|Hnot].
    + right. split; [done|].
      destruct (search_recursive_found t key Ht Hin) as (l & r & Hs).
      destruct (search_recursive_sound t key) as [Hnull|Hnode]; [congruence|].
      destruct Hnode as (p & a & b & Hp & Hs'). by exists p, a, b.
    + left. split; [|done]. by apply search_recursive_absent.
Qed.

Lemma search_recursive_correct_witness :
  search_recursive scenario_tree 70
  = Node 70 (Node 60 NULL NULL) (Node 80 NULL NULL)
  ∧ search_recursive scenario_tree 65 = NULL.
Proof.
  destruct (search_recursive_correct scenario_tree 70) as (_ & _ & _ & H70).
  destruct (search_recursive_correct scenario_tree 65) as (_ & _ & _ & H65).
  destruct (H70 scenario_tree_BST) as [[_ Hnot]|[_ (p & l & r & _ & Hs)]].
  - exfalso. apply Hnot. apply (bool_decide_unpack _). by vm_compute.
  - destruct (H65 scenario_tree_BST) as [[Hs' _]|[Hin _]].
    + split; [by vm_compute | exact Hs'].
    + exfalso. revert Hin. apply (bool_decide_unpack _). by vm_compute.
Defined.

Lemma search_insert_recursive_same t key :
  ∃ l r, search_recursive (insert_recursive t key) key = Node key l r.
Proof.
  induction t as [|k l IHl r IHr].
  - exists NULL, NULL. cbn. by rewrite decide_True.
  - cbn [insert_recursive]. case_decide; [|case_decide].
    + cbn [search_recursive]. rewrite decide_False by lia. by rewrite decide_True.
    + cbn [search_recursive]. rewrite decide_False by lia.
      by rewrite decide_False by lia.
    + assert (k = key) as -> by lia. exists l, r. cbn. by rewrite decide_True.
Qed.

Lemma search_insert_recursive_other t key key' :
  key' ≠ key →
  (search_recursive (insert_recursive t key) key' = NULL
   ↔ search_recursive t key' = NULL).
Proof.
  intros Hne. induction t as [|k l IHl r IHr].
  - cbn. rewrite decide_False by done. by case_decide.
  - cbn [insert_recursive]. case_decide; [|case_decide]; [..|done];
      cbn [search_recursive]; repeat case_decide; done.
Qed.

(** X2.  After an insert, recursive or iterative, the search for the inserted
    key returns a node holding it, the search for any other key succeeds
    exactly when it did before, and inserting the same key again changes
    nothing.  This holds on every tree, ordered or not. *)
Theorem insert_then_search t key :
  (∃ l r, search_recursive (insert_recursive t key) key = Node key l r)
  ∧ (∃ l r, search_recursive (insert_iterative t key) key = Node key l r)
  ∧ (∀ key', key' ≠ key →
       (search_recursive (insert_recursive t key) key' = NULL
        ↔ search_recursive t key' = NULL)
       ∧ (search_recursive (insert_iterative t key) key' = NULL
          ↔ search_recursive t key' = NULL))
  ∧ insert_recursive (insert_recursive t key) key = insert_recursive t key
  ∧ insert_iterative (insert_iterative t key) key = insert_iterative t key.
Proof.
  rewrite !insert_iterative_recursive.
  pose proof (search_insert_recursive_same t key) as Hsame.
  assert (insert_recursive (insert_recursive t key) key = insert_recursive t key)
    as Hidem.
  { apply insert_recursive_present. by destruct Hsame as (l & r & ->). }
  split_and!; try done.
  intros key' Hne. split; by apply search_insert_recursive_other.
Qed.

(** X3.  After a delete on a search tree the deleted key is no longer found,
    and every other key is found exactly when it was found before. *)
Theorem delete_then_search t key :
  BST t →
  search_recursive (deleteNode t key) key = NULL
  ∧ ∀ key', key' ≠ key →
      (search_recursive (deleteNode t key) key' = NULL
       ↔ search_recursive t key' = NULL).
Proof.
  intros Ht. pose proof (BST_deleteNode t key Ht) as Hd.
  pose proof (keys_deleteNode t key Ht) as Hk.
  assert (∀ u k, BST u → (search_recursive u k = NULL ↔ k ∉ keys u)) as Hiff.
  { intros u k Hu. split.
    - intros Hs Hin. destruct (search_recursive_found u k Hu Hin) as (?&?&?).
      congruence.
    - apply search_recursive_absent. }
  split.
  - apply Hiff; [done|]. rewrite Hk. set_solver.
  - intros key' Hne. rewrite !Hiff by done. rewrite Hk. set_solver.
Qed.

Lemma delete_then_search_witness :
  search_recursive (deleteNode scenario_tree 50) 50 = NULL.
Proof. exact (proj1 (delete_then_search scenario_tree 50 scenario_tree_BST)). Defined.

(** X4.  Deleting a key right after inserting it, when the search did not
    find it before, gives back the tree as it was, node for node; this holds
    on every tree. *)
Theorem insert_delete_roundtrip t key :
  search_recursive t key = NULL →
  deleteNode (insert_recursive t key) key = t
  ∧ deleteNode (insert_iterative t key) key = t.
Proof.
  intros Hs. rewrite insert_iterative_recursive.
  assert (deleteNode (insert_recursive t key) key = t) as H; [|done].
  induction t as [|k l IHl r IHr].
  - cbn. by rewrite !decide_False by lia.
  - cbn [search_recursive] in Hs. cbn [insert_recursive].
    case_decide as Hk; [done|].
    destruct (decide (key < k)).
    + cbn [deleteNode]. rewrite decide_True by done. by rewrite IHl.
    + rewrite decide_True by lia. cbn [deleteNode].
      rewrite decide_False by done. rewrite decide_True by lia. by rewrite IHr.
Qed.

Lemma insert_delete_roundtrip_witness :
  deleteNode (insert_recursive scenario_tree 65) 65 = scenario_tree
  ∧ deleteNode (insert_iterative scenario_tree 65) 65 = scenario_tree.
Proof. apply (insert_delete_roundtrip scenario_tree 65). by vm_compute. Defined.

(** ** Deleting many keys *)

Lemma keys_empty_NULL t : keys t = ∅ → t = NULL.
Proof. destruct t as [|k l r]; [done|]. cbn [keys]. set_solver. Qed.

Lemma fold_deleteNode_keys ks t :
  BST t →
  BST (fold_left deleteNode ks t)
  ∧ keys (fold_left deleteNode ks t) = keys t ∖ list_to_set ks.
Proof.
  revert t. induction ks as [|k ks IH]; intros t Ht; cbn [fold_left].
  - split; [done|]. set_solver.
  - destruct (IH (deleteNode t k) (BST_deleteNode t k Ht)) as [Hb Hk].
    split; [done|]. rewrite Hk, keys_deleteNode by done. set_solver.
Qed.

(** X5.  Deleting a list of keys from a search tree, in any order and with
    repetitions or foreign keys among them, leaves exactly the keys that are
    not in the list; when the list holds every key of the tree the result is
    the empty tree. *)
Theorem delete_all t (ks : list Z) :
  BST t →
  (∀ k, k ∈ inorder (fold_left deleteNode ks t) ↔ k ∈ keys t ∧ k ∉ ks)
  ∧ ((∀ k, k ∈ keys t → k ∈ ks) → fold_left deleteNode ks t = NULL).
Proof.
  intros Ht. destruct (fold_deleteNode_keys ks t Ht) as [_ Hk]. split.
  - intros k. rewrite elem_of_inorder, Hk. set_solver.
  - intros Hall. apply keys_empty_NULL. rewrite Hk. set_solver.
Qed.

Lemma delete_all_witness :
  fold_left deleteNode [80; 20; 99; 50; 30; 70; 20; 40; 60] scenario_tree = NULL.
Proof.
  apply (delete_all scenario_tree [80; 20; 99; 50; 30; 70; 20; 40; 60]
           scenario_tree_BST).
  intros k Hk%elem_of_inorder. vm_compute in Hk. set_solver.
Defined.

(** ** How updates change the statistics *)

Lemma spec_count_insert_recursive t key :
  spec_count (insert_recursive t key)
  = if decide (search_recursive t key = NULL)
    then spec_count t + 1 else spec_count t.
Proof.
  induction t as [|k l IHl r IHr]; [done|].
  cbn [insert_recursive search_recursive].
  destruct (Z.lt_total key k) as [Hlt | [-> | Hgt]]; compare_keys.
  - cbn [spec_count]. rewrite IHl.
    destruct (decide (search_recursive l key = NULL)); lia.
  - by rewrite decide_False.
  - cbn [spec_count]. rewrite IHr.
    destruct (decide (search_recursive r key = NULL)); lia.
Qed.

Lemma spec_count_deleteNode t key :
  BST t →
  spec_count (deleteNode t key)
  = if decide (search_recursive t key = NULL)
    then spec_count t else spec_count t - 1.
Proof.
  revert key. induction t as [|k l IHl r IHr]; intros key Ht; [done|].
  pose proof (BST_left _ _ _ Ht) as Bl. pose proof (BST_right _ _ _ Ht) as Br.
  destruct (Z.lt_total key k) as [Hlt | [-> | Hgt]].
  - cbn [deleteNode search_recursive]. compare_keys.
    cbn [spec_count]. rewrite IHl by done.
    destruct (decide (search_recursive l key = NULL)); lia.
  - cbn [search_recursive]. compare_keys. rewrite decide_False by done.
    destruct (decide (l = NULL)) as [->|Hln].
    { rewrite deleteNode_eq_left_absent. cbn [spec_count]. lia. }
    destruct (decide (r = NULL)) as [->|Hrn].
    { rewrite deleteNode_eq_right_absent. cbn [spec_count]. lia. }
    destruct (minValueNode_shape r Hrn) as (m & mr & Hmin).
    rewrite (deleteNode_eq_two_children _ _ _ _ _ _ Hln Hrn Hmin).
    destruct (minValueNode_least _ _ _ _ Br Hmin) as [Hm _].
    destruct (search_recursive_found r m Br Hm) as (a & b & Hfound).
    cbn [spec_count]. rewrite IHr by done. rewrite Hfound.
    rewrite decide_False by done. lia.
  - cbn [deleteNode search_recursive]. compare_keys.
    cbn [spec_count]. rewrite IHr by done.
    destruct (decide (search_recursive r key = NULL)); lia.
Qed.

(** X6.  As long as the count fits an [int]: on every tree an insert of a key
    that the search does not find raises [count_nodes] by one, a duplicate
    insert leaves it as it is, and so does a delete of a key that the search
    does not find; on a search tree a delete of a key that the search finds
    lowers it by one. *)
Theorem count_nodes_after_update t key :
  spec_count t < INT_MAX →
  count_nodes (insert_recursive t key)
  = (if decide (search_recursive t key = NULL)
     then count_nodes t + 1 else count_nodes t)
  ∧ count_nodes (insert_iterative t key) = count_nodes (insert_recursive t key)
  ∧ (search_recursive t key = NULL →
     count_nodes (deleteNode t key) = count_nodes t)
  ∧ (BST t →
     count_nodes (deleteNode t key)
     = (if decide (search_recursive t key = NULL)
        then count_nodes t else count_nodes t - 1)).
Proof.
  intros Hfit. rewrite insert_iterative_recursive.
  pose proof (spec_count_insert_recursive t key) as Hi.
  destruct (statistics_refine t) as (_ & Hc & _); [lia|].
  destruct (statistics_refine (insert_recursive t key)) as (_ & Hci & _).
  { rewrite Hi. case_decide; lia. }
  split_and!.
  - by rewrite Hci, Hc.
  - done.
  - intros Hs. by rewrite deleteNode_absent.
  - intros Ht. pose proof (spec_count_deleteNode t key Ht) as Hd.
    destruct (statistics_refine (deleteNode t key)) as (_ & Hcd & _).
    { rewrite Hd. case_decide; lia. }
    by rewrite Hcd, Hc.
Qed.

Lemma count_nodes_after_update_witness :
  count_nodes (insert_recursive scenario_tree 65) = 8
  ∧ count_nodes (insert_iterative scenario_tree 60) = 7
  ∧ count_nodes (deleteNode scenario_tree 50) = 6.
Proof.
  assert (spec_count scenario_tree < INT_MAX) as Hfit by (by vm_compute).
  destruct (count_nodes_after_update scenario_tree 65 Hfit) as (H1 & _).
  destruct (count_nodes_after_update scenario_tree 60 Hfit) as (H2 & H2' & _).
  destruct (count_nodes_after_update scenario_tree 50 Hfit) as (_ & _ & _ & H3).
  specialize (H3 scenario_tree_BST).
  rewrite H1, H2', H2, H3. clear. by vm_compute.
Defined.

Lemma spec_count_inorder t : spec_count t = Z.of_nat (length (inorder t)).
Proof.
  induction t as [|k l IHl r IHr]; [done|].
  cbn [spec_count inorder]. rewrite length_app. cbn [length]. lia.
Qed.

Lemma spec_count_height t : spec_count t ≤ 2 ^ spec_height t - 1.
Proof.
  induction t as [|k l IHl r IHr]; [done|]. cbn [spec_count spec_height].
  pose proof (spec_statistics_bounds l) as [[Hl _] _].
  pose proof (spec_statistics_bounds r) as [[Hr _] _].
  rewrite Z.pow_add_r, Z.pow_1_r by lia.
  assert (2 ^ spec_height l ≤ 2 ^ Z.max (spec_height l) (spec_height r))
    by (apply Z.pow_le_mono_r; lia).
  assert (2 ^ spec_height r ≤ 2 ^ Z.max (spec_height l) (spec_height r))
    by (apply Z.pow_le_mono_r; lia).
  lia.
Qed.

Lemma spec_leafCount_pos t : t ≠ NULL → 1 ≤ spec_leafCount t.
Proof.
  induction t as [|k l IHl r IHr]; [done|]. intros _.
  pose proof (proj2 (spec_statistics_bounds l)).
  pose proof (proj2 (spec_statistics_bounds r)).
  destruct l as [|lk ll lr], r as [|rk rl rr]; [done|..].
  - specialize (IHr ltac:(done)).
    change (1 ≤ spec_leafCount NULL + spec_leafCount (Node rk rl rr)). lia.
  - specialize (IHl ltac:(done)).
    change (1 ≤ spec_leafCount (Node lk ll lr) + spec_leafCount NULL). lia.
  - specialize (IHl ltac:(done)).
    change (1 ≤ spec_leafCount (Node lk ll lr) + spec_leafCount (Node rk rl rr)).
    lia.
Qed.

Lemma spec_count_size t : spec_count t = Z.of_nat (size t).
Proof. induction t as [|k l IHl r IHr]; [done|]. cbn [spec_count size]. lia. Qed.

Lemma length_inorder t : length (inorder t) = size t.
Proof.
  induction t as [|k l IHl r IHr]; [done|].
  cbn [inorder size]. rewrite length_app. cbn [length]. lia.
Qed.

(** X7.  As long as the number of nodes fits an [int]: [count_nodes] is the
    length of the in-order sequence; the height is at most the count and the
    count at most [2^height - 1]; the leaf count lies between 1 and the count
    on a tree that is not empty; and the height is 0 only on the empty
    tree. *)
Theorem statistics_bounds t :
  Z.of_nat (size t) ≤ INT_MAX →
  count_nodes t = Z.of_nat (length (inorder t))
  ∧ 0 ≤ height t ≤ count_nodes t
  ∧ count_nodes t ≤ 2 ^ height t - 1
  ∧ 0 ≤ count_leaves t ≤ count_nodes t
  ∧ (t ≠ NULL → 1 ≤ count_leaves t)
  ∧ (height t = 0 ↔ t = NULL).
Proof.
  rewrite <- spec_count_size. intros Hfit.
  destruct (statistics_refine t Hfit) as (-> & -> & ->).
  pose proof (spec_statistics_bounds t) as [Hh Hl].
  pose proof (spec_count_height t).
  split_and!; try lia.
  - apply spec_count_inorder.
  - apply spec_leafCount_pos.
  - destruct t as [|k l r]; [done|]. cbn [spec_height].
    pose proof (spec_statistics_bounds l) as [[? _] _].
    pose proof (spec_statistics_bounds r) as [[? _] _].
    split; [lia|done].
Qed.

Lemma statistics_bounds_witness :
  count_nodes scenario_tree = Z.of_nat (length (inorder scenario_tree))
  ∧ count_nodes scenario_tree ≤ 2 ^ height scenario_tree - 1.
Proof.
  destruct (statistics_bounds scenario_tree) as (H1 & _ & H2 & _).
  { clear. by vm_compute. }
  exact (conj H1 H2).
Defined.

(** ** The depth-first traversals *)

(** X8.  The three depth-first traversals print the same keys, every node
    once: preorder and postorder are rearrangements of the in-order
    sequence, preorder starts and postorder ends with the root's key. *)
Theorem traversals_same_keys t :
  preorder t ≡ₚ inorder t ∧ postorder t ≡ₚ inorder t
  ∧ length (preorder t) = size t ∧ length (postorder t) = size t
  ∧ head (preorder t) = node_key t ∧ last (postorder t) = node_key t.
Proof.
  assert (preorder t ≡ₚ inorder t ∧ postorder t ≡ₚ inorder t) as [Hpre Hpost].
  { induction t as [|k l [IHl1 IHl2] r [IHr1 IHr2]]; [done|].
    cbn [preorder postorder inorder]. split.
    - rewrite IHl1, IHr1. apply Permutation_middle.
    - rewrite IHl2, IHr2. rewrite <- Permutation_middle.
      by rewrite app_nil_r. }
  split_and!; try done.
  - by rewrite Hpre, length_inorder.
  - by rewrite Hpost, length_inorder.
  - by destruct t.
  - destruct t as [|k l r]; [done|]. cbn [postorder node_key].
    by rewrite (assoc_L (++)), last_snoc.
Qed.

(** ** The level-order traversal *)

Lemma level_beyond_depth d t : (depth t ≤ d)%nat → level d t = [].
Proof.
  revert d. induction t as [|k l IHl r IHr]; intros d Hd; [by destruct d|].
  cbn [depth] in Hd. destruct d as [|d]; [lia|].
  cbn [level]. rewrite IHl, IHr by lia. done.
Qed.

Lemma flat_map_level_present d t : flat_map (level d) (present t) = level d t.
Proof. destruct t; [by destruct d|]. cbn. by rewrite app_nil_r. Qed.

Lemma flat_map_nil_fun {A B} (l : list A) : flat_map (λ _, @nil B) l = [].
Proof. by induction l. Qed.

Lemma flat_map_seq_shift {B} (f : nat → list B) D :
  flat_map f (seq 1 D) = flat_map (λ d, f (S d)) (seq 0 D).
Proof.
  rewrite <- seq_shift, flat_map_concat_map, map_map, <- flat_map_concat_map.
  done.
Qed.

Lemma flat_map_beyond_depth d (q : queue) :
  Forall (λ t, (depth t ≤ d)%nat) q → flat_map (level d) q = [].
Proof.
  induction 1 as [|t q Ht _ IH]; [done|].
  cbn [flat_map]. by rewrite level_beyond_depth, IH.
Qed.

Lemma levels_of_queue_step D k l r (q1 q2 : queue) :
  levels_of_queue D (Node k l r :: q1) q2
  = k :: levels_of_queue D q1 (q2 ++ present l ++ present r).
Proof.
  unfold levels_of_queue. cbn [flat_map level app]. f_equal. f_equal.
  apply flat_map_ext. intros d.
  rewrite !flat_map_app, !flat_map_level_present, <- !app_assoc. done.
Qed.

Lemma levels_of_queue_turn D (q : queue) :
  Forall (λ t, (depth t ≤ D)%nat) q →
  levels_of_queue D [] q = levels_of_queue D q [].
Proof.
  intros Hq. unfold levels_of_queue. cbn [flat_map app].
  transitivity (flat_map (λ d, flat_map (level d) q) (seq 0 (S D))).
  - rewrite seq_S, flat_map_app. cbn [flat_map Nat.add].
    rewrite flat_map_beyond_depth, !app_nil_r by done.
    apply flat_map_ext. intros d. by rewrite app_nil_r.
  - cbn [seq flat_map]. f_equal.
    rewrite <- seq_shift, flat_map_concat_map, map_map, <- flat_map_concat_map.
    done.
Qed.

Lemma queue_size_cons t (q : queue) :
  queue_size (t :: q) = (size t + queue_size q)%nat.
Proof. done. Qed.

Lemma queue_size_app (q q' : queue) :
  queue_size (q ++ q') = (queue_size q + queue_size q')%nat.
Proof. apply sum_list_with_app. Qed.

Lemma queue_size_present t : queue_size (present t) = size t.
Proof. destruct t; [done|]. unfold queue_size. cbn. lia. Qed.

Lemma Forall_present (P : tree → Prop) t : P t → Forall P (present t).
Proof. intros Ht. destruct t; [constructor|]. by repeat constructor. Qed.

Lemma Forall_present_node t : Forall (λ u, u ≠ NULL) (present t).
Proof. destruct t; [constructor|]. by repeat constructor. Qed.

(** One iteration of the loop: the front node leaves the queue, its key is
    printed and its children join at the back. *)
Lemma levelOrder_loop_step fuel k l r (q : queue) :
  levelOrder_loop (S fuel) (Node k l r :: q)
  = cons k <$> levelOrder_loop fuel (q ++ present l ++ present r).
Proof.
  cbn [levelOrder_loop dequeue]. unfold enqueue.
  destruct l, r; cbn [present]; rewrite ?app_nil_r, <- ?app_assoc; done.
Qed.

Lemma levelOrder_loop_spec fuel :
  ∀ (q1 q2 : queue) D,
    Forall (λ u, u ≠ NULL) (q1 ++ q2) →
    (queue_size (q1 ++ q2) ≤ fuel)%nat →
    Forall (λ t, (depth t ≤ S D)%nat) q1 →
    Forall (λ t, (depth t ≤ D)%nat) q2 →
    levelOrder_loop fuel (q1 ++ q2) = Some (levels_of_queue D q1 q2).
Proof.
  induction fuel as [|fuel IH].
  - intros q1 q2 D Hnn Hsize _ _.
    assert (q1 ++ q2 = []) as Hnil.
    { destruct (q1 ++ q2) as [|t q]; [done|].
      apply Forall_cons in Hnn as [Ht _]. destruct t; [done|].
      rewrite queue_size_cons in Hsize. cbn [size] in Hsize. lia. }
    apply app_eq_nil in Hnil as [-> ->]. cbn.
    unfold levels_of_queue. cbn. by rewrite flat_map_nil_fun.
  - assert (∀ t (q1 q2 : queue) D,
              Forall (λ u, u ≠ NULL) ((t :: q1) ++ q2) →
              (queue_size ((t :: q1) ++ q2) ≤ S fuel)%nat →
              Forall (λ t, (depth t ≤ S D)%nat) (t :: q1) →
              Forall (λ t, (depth t ≤ D)%nat) q2 →
              levelOrder_loop (S fuel) ((t :: q1) ++ q2)
              = Some (levels_of_queue D (t :: q1) q2)) as Hcons.
    { intros t q1 q2 D Hnn Hsize Hd1 Hd2.
      cbn [app] in Hnn, Hsize |- *.
      apply Forall_cons in Hnn as [Ht Hnn]. apply Forall_cons in Hd1 as [Hdt Hd1].
      destruct t as [|k l r]; [done|].
      rewrite queue_size_cons in Hsize. cbn [size depth] in Hsize, Hdt.
      rewrite levelOrder_loop_step, levels_of_queue_step, <- app_assoc.
      rewrite (IH q1 (q2 ++ present l ++ present r) D).
      - done.
      - rewrite app_assoc. apply Forall_app. split; [done|].
        apply Forall_app. split; apply Forall_present_node.
      - rewrite app_assoc, !queue_size_app, !queue_size_present.
        rewrite queue_size_app in Hsize. lia.
      - done.
      - apply Forall_app. split; [done|].
        apply Forall_app. split; apply Forall_present; lia. }
    intros q1 q2 D Hnn Hsize Hd1 Hd2.
    destruct q1 as [|t q1]; [|by apply Hcons].
    destruct q2 as [|t q2].
    + cbn. unfold levels_of_queue. cbn. by rewrite flat_map_nil_fun.
    + cbn [app] in *. rewrite levels_of_queue_turn by done.
      rewrite <- (app_nil_r (t :: q2)) at 1.
      apply Hcons; rewrite ?app_nil_r; try done.
      eapply Forall_impl; [exact Hd2|]. cbn. lia.
Qed.

Lemma by_levels_perm D t :
  (depth t ≤ D)%nat → flat_map (λ d, level d t) (seq 0 D) ≡ₚ inorder t.
Proof.
  revert D. induction t as [|k l IHl r IHr]; intros D HD.
  - rewrite (flat_map_ext _ (λ _, [])) by (by intros []).
    by rewrite flat_map_nil_fun.
  - cbn [depth] in HD. destruct D as [|D]; [lia|].
    cbn [seq flat_map level inorder].
    rewrite <- seq_shift, flat_map_concat_map, map_map, <- flat_map_concat_map.
    cbn [level]. rewrite <- Permutation_middle. cbn [app]. constructor.
    rewrite <- (IHl D), <- (IHr D) by lia.
    clear. induction (seq 0 D) as [|d s IH]; [done|].
    cbn [flat_map]. rewrite IH.
    rewrite <- !app_assoc. apply Permutation_app_head.
    rewrite !app_assoc. apply Permutation_app_tail, Permutation_app_comm.
Qed.

Lemma levelOrder_levels t : levelOrder t = Some (by_levels t).
Proof.
  destruct t as [|k l r]; [done|].
  unfold levelOrder, enqueue, by_levels.
  change ([] ++ [Node k l r]) with ([Node k l r] ++ []).
  rewrite (levelOrder_loop_spec _ _ _ (depth l `max` depth r)).
  - f_equal. unfold levels_of_queue. cbn [depth seq flat_map app].
    rewrite app_nil_r. f_equal. rewrite flat_map_seq_shift.
    apply flat_map_ext. intros d. cbn [flat_map app]. by rewrite app_nil_r.
  - by repeat constructor.
  - rewrite app_nil_r, queue_size_cons. unfold queue_size. cbn. lia.
  - constructor; [cbn [depth]; lia | constructor].
  - constructor.
Qed.

(** X9.  [levelOrder] terminates on every tree and prints its keys level
    after level, each level from left to right: first the root, then the keys
    at distance 1, and so on down to the deepest level. *)
Theorem levelOrder_by_levels t :
  levelOrder t = Some (flat_map (λ d, level d t) (seq 0 (depth t))).
Proof. apply levelOrder_levels. Qed.

(** X10.  [levelOrder] prints every key of the tree, each node once: its
    output is a rearrangement of the in-order sequence, as long as the number
    of nodes, and starts with the root's key. *)
Theorem levelOrder_same_keys t :
  ∃ ks, levelOrder t = Some ks
        ∧ ks ≡ₚ inorder t ∧ length ks = size t ∧ head ks = node_key t.
Proof.
  exists (by_levels t). split; [apply levelOrder_levels|].
  assert (by_levels t ≡ₚ inorder t) as Hperm by (by apply by_levels_perm).
  split_and!; [done | by rewrite Hperm, length_inorder |].
  destruct t as [|k l r]; [done|]. unfold by_levels. by cbn.
Qed.

Example scenario_levelOrder :
  levelOrder scenario_tree = Some [50; 30; 70; 20; 40; 60; 80].
Proof. by vm_compute. Qed.

(** ** Neighbours along the in-order sequence *)

Lemma predecessor_key t key :
  BST t → node_key (predecessor t key) = list_predecessor (inorder t) key.
Proof.
  intros Ht. unfold predecessor. rewrite predecessor_loop_spec by done.
  by destruct (list_predecessor _ _).
Qed.

Lemma successor_key t key :
  BST t → node_key (successor t key) = list_successor (inorder t) key.
Proof.
  intros Ht. unfold successor. rewrite successor_loop_spec by done.
  by destruct (list_successor _ _).
Qed.

Lemma list_successor_adjacent (l1 l2 : list Z) a :
  StronglySorted Z.lt (l1 ++ a :: l2) →
  list_successor (l1 ++ a :: l2) a = head l2.
Proof.
  intros Hs. apply StronglySorted_app in Hs as (H12 & _ & Hs2).
  apply StronglySorted_inv in Hs2 as [_ Hall]. rewrite Forall_forall in Hall.
  unfold list_successor. rewrite filter_app, filter_cons_False by lia.
  rewrite filter_none, filter_all; [done|done|].
  intros x Hx. specialize (H12 x a Hx ltac:(left)). lia.
Qed.

Lemma list_predecessor_adjacent (l1 l2 : list Z) b :
  StronglySorted Z.lt (l1 ++ b :: l2) →
  list_predecessor (l1 ++ b :: l2) b = last l1.
Proof.
  intros Hs. apply StronglySorted_app in Hs as (H12 & _ & Hs2).
  apply StronglySorted_inv in Hs2 as [_ Hall]. rewrite Forall_forall in Hall.
  unfold list_predecessor. rewrite filter_app, filter_cons_False by lia.
  rewrite (filter_none _ l2), app_nil_r by (intros x Hx%Hall; lia).
  rewrite filter_all; [done|].
  intros x Hx. apply (H12 x b Hx). by left.
Qed.

(** X11.  On a search tree [successor] and [predecessor] step along the
    in-order sequence: of two keys that are neighbours in that sequence the
    second is the successor of the first and the first the predecessor of
    the second; the first key of the sequence has no predecessor and the last
    one no successor. *)
Theorem neighbours_step_inorder t (l1 l2 : list Z) a :
  BST t → inorder t = l1 ++ a :: l2 →
  node_key (successor t a) = head l2
  ∧ node_key (predecessor t a) = last l1
  ∧ (∀ b, head l2 = Some b → node_key (predecessor t b) = Some a)
  ∧ (∀ z, last l1 = Some z → node_key (successor t z) = Some a).
Proof.
  intros Ht Heq. pose proof (BST_inorder_sorted t Ht) as Hs.
  rewrite predecessor_key, successor_key by done.
  split_and!.
  - rewrite Heq in Hs |- *. by apply list_successor_adjacent.
  - rewrite Heq in Hs |- *. by apply list_predecessor_adjacent.
  - intros b Hb. destruct l2 as [|b' l2]; [done|]. injection Hb as ->.
    rewrite predecessor_key by done. rewrite Heq in Hs |- *.
    replace (l1 ++ a :: b :: l2) with ((l1 ++ [a]) ++ b :: l2) in Hs |- *
      by (by rewrite <- app_assoc).
    rewrite list_predecessor_adjacent by done. apply last_snoc.
  - intros z Hz. apply last_Some in Hz as [l1' ->].
    rewrite successor_key by done. rewrite Heq in Hs |- *.
    rewrite <- app_assoc in Hs |- *. cbn [app] in Hs |- *.
    by rewrite list_successor_adjacent.
Qed.

Lemma neighbours_step_inorder_witness :
  node_key (successor scenario_tree 40) = Some 50
  ∧ node_key (predecessor scenario_tree 40) = Some 30.
Proof.
  destruct (neighbours_step_inorder scenario_tree [20; 30] [50; 60; 70; 80] 40
              scenario_tree_BST) as (H1 & H2 & _); [by vm_compute|].
  exact (conj H1 H2).
Defined.

Lemma minValueNode_leftmost t : minValueNode t = leftmost t.
Proof. induction t as [|k l IHl r _]; [done|]. cbn. by destruct l. Qed.

(** X12.  [minValueNode] returns [NULL] only for the empty tree; otherwise it
    returns a node without left child whose key is the first of the in-order
    sequence, which on a search tree is the least key of the tree and has no
    predecessor. *)
Theorem minValueNode_correct t :
  (minValueNode t = NULL ↔ t = NULL)
  ∧ node_key (minValueNode t) = head (inorder t)
  ∧ (∀ m ml mr, minValueNode t = Node m ml mr → ml = NULL)
  ∧ (BST t → ∀ m ml mr, minValueNode t = Node m ml mr →
       m ∈ keys t ∧ (∀ x, x ∈ keys t → m ≤ x)
       ∧ predecessor t m = NULL).
Proof.
  split_and!.
  - split; [|by intros ->]. intros Hmin.
    destruct (decide (t = NULL)) as [|Hne]; [done|].
    destruct (minValueNode_shape t Hne) as (m & mr & Hm). congruence.
  - rewrite minValueNode_leftmost. apply leftmost_key.
  - intros m ml mr Hmin.
    assert (t ≠ NULL) as Hne by (by intros ->).
    destruct (minValueNode_shape t Hne) as (m' & mr' & Hm). congruence.
  - intros Ht m ml mr Hmin.
    destruct (minValueNode_least _ _ _ _ Ht Hmin) as [Hin Hle].
    split_and!; [done..|].
    pose proof (list_predecessor_greatest t m Ht) as Hg.
    rewrite <- predecessor_key in Hg by done.
    destruct (predecessor t m) as [|p pl pr]; [done|].
    cbn in Hg. destruct Hg as (Hp & Hlt & _). specialize (Hle p Hp). lia.
Qed.

(** ** The codec: what is read and what is left *)

Lemma read_word_split w fp :
  (length (read_word w fp).1 ≤ w)%nat
  ∧ Forall (λ c, isspace c = false) (read_word w fp).1
  ∧ fp = (read_word w fp).1 ++ (read_word w fp).2.
Proof.
  revert fp. induction w as [|w IH]; intros [|c fp]; cbn [read_word];
    try (by split_and!; [cbn; lia | constructor | done]).
  destruct (isspace c) eqn:Hc; [by split_and!; [cbn; lia | constructor | done]|].
  destruct (IH fp) as (Hlen & Hall & Heq).
  destruct (read_word w fp) as [buf rest]. cbn [fst snd length app] in *.
  split_and!; [lia | by constructor | by rewrite <- Heq].
Qed.

Lemma skip_space_split fp :
  ∃ ws, Forall (λ c, isspace c = true) ws ∧ fp = ws ++ skip_space fp.
Proof.
  induction fp as [|c fp (ws & Hws & Heq)]; [by exists []|].
  cbn [skip_space]. destruct (isspace c) eqn:Hc.
  - exists (c :: ws). split; [by constructor|]. cbn [app]. by rewrite <- Heq.
  - by exists [].
Qed.

(** X13.  A successful [fscanf(fp, "%63s", buf)] skips white space and stores
    between 1 and 63 characters, none of them white space, so that the word
    and its terminator fit [buf[64]]; the stream is the skipped white space,
    the word, and what is left to read.  It fails exactly when only white
    space is left, and then the stream is at its end. *)
Theorem fscanf_s63_bounds fp :
  match fscanf_s63 fp with
  | (Some buf, rest) =>
      (1 ≤ length buf ≤ 63)%nat
      ∧ Forall (λ c, isspace c = false) buf
      ∧ ∃ ws, Forall (λ c, isspace c = true) ws ∧ fp = ws ++ buf ++ rest
  | (None, rest) => rest = [] ∧ Forall (λ c, isspace c = true) fp
  end.
Proof.
  unfold fscanf_s63.
  destruct (skip_space_split fp) as (ws & Hws & Heq).
  destruct (skip_space fp) as [|c fp'] eqn:Hskip.
  - split; [done|]. by rewrite Heq, app_nil_r.
  - pose proof (skip_space_head _ _ _ Hskip) as Hc.
    destruct (read_word_split 63 (c :: fp')) as (Hlen & Hall & Hsplit).
    change 63%nat with (S 62) in *. rewrite read_word_S in * by done.
    cbn [fst snd] in *.
    split_and!; [cbn [length]; lia | exact Hlen | done |].
    exists ws. split; [done|]. by rewrite <- Hsplit.
Qed.

(** X14.  Reading stops where the saved tree ends: loading from a stream
    that starts with the serialisation of a tree returns that tree and
    leaves everything after it unread, so that trees saved one after the
    other are loaded back one after the other. *)
Theorem load_leaves_rest t1 t2 rest :
  int_keys t1 → int_keys t2 →
  load_tree_preorder (save_tree_preorder t1 ++ rest) = Some (t1, SPACE :: rest)
  ∧ load_tree_preorder (save_tree_preorder t1 ++ save_tree_preorder t2 ++ rest)
    = Some (t1, SPACE :: save_tree_preorder t2 ++ rest)
  ∧ load_tree_preorder (SPACE :: save_tree_preorder t2 ++ rest)
    = Some (t2, SPACE :: rest).
Proof.
  intros H1 H2. split_and!.
  - by apply load_save.
  - by apply load_save.
  - rewrite load_tree_preorder_skip by apply isspace_SPACE. by apply load_save.
Qed.

Lemma load_leaves_rest_witness :
  load_tree_preorder
    (save_tree_preorder scenario_tree ++ save_tree_preorder (newNode 7) ++ [])
  = Some (scenario_tree, SPACE :: save_tree_preorder (newNode 7) ++ []).
Proof.
  apply (load_leaves_rest scenario_tree (newNode 7) []);
    apply (bool_decide_unpack _); by vm_compute.
Defined.





(** ** The codec: the words of a saved tree *)

Lemma tokens_from_word cur tok rest :
  Forall (λ c, isspace c = false ∧ c ≠ NUL) tok → rev cur ++ tok ≠ [] →
  tokens_from cur (tok ++ SPACE :: rest) = (rev cur ++ tok) :: tokens_from [] rest.
Proof.
  intros Htok. revert cur.
  induction Htok as [|c tok [Hc _] _ IH]; intros cur Hne.
  - cbn [app tokens_from]. rewrite isspace_SPACE, app_nil_r in *.
    destruct cur as [|c cur]; [done|]. done.
  - cbn [app tokens_from]. rewrite Hc, IH.
    + cbn [rev]. by rewrite <- app_assoc.
    + cbn [rev]. rewrite <- app_assoc. by destruct (rev cur).
Qed.

Lemma tokens_save t rest :
  int_keys t →
  tokens (save_tree_preorder t ++ rest) = preorder_tokens t ++ tokens rest.
Proof.
  unfold tokens. revert rest. induction t as [|k l IHl r IHr]; intros rest Hint.
  - cbn [save_tree_preorder preorder_tokens].
    change ([HASH; SPACE] ++ rest) with ([HASH] ++ SPACE :: rest).
    rewrite tokens_from_word; [done| |done]. apply is_word_HASH.
  - apply int_keys_Node in Hint as (Hk & Hl & Hr).
    destruct (print_int_word k Hk) as [(Hne & Hall & _) _].
    cbn [save_tree_preorder preorder_tokens]. rewrite <- !app_assoc. cbn [app].
    rewrite tokens_from_word by done. cbn [rev app].
    by rewrite IHl, IHr, <- app_assoc by done.
Qed.

Lemma integer_token_print_int z : integer_token (print_int z).
Proof.
  unfold print_int. destruct z as [|p|p]; cbn [Z.to_int].
  - change (uint_chars Decimal.zero) with [chr 48]. cbn [integer_token].
    destruct (is_digit_not_sign (chr 48)) as [? ?]; [by vm_compute|].
    rewrite decide_False by tauto. apply (uint_chars_digits Decimal.zero).
  - destruct (uint_chars_pos p) as (c & s & Heq & Hc & Hs).
    rewrite Heq. cbn [integer_token].
    destruct (is_digit_not_sign c Hc) as [? ?].
    rewrite decide_False by tauto. by constructor.
  - cbn [integer_token]. rewrite decide_True by auto.
    destruct (uint_chars_pos p) as (c & s & Heq & _).
    split; [by rewrite Heq | apply uint_chars_digits].
Qed.

Lemma spec_node_preorder_tokens t rest :
  spec_node (preorder_tokens t ++ rest) rest.
Proof.
  revert rest. induction t as [|k l IHl r IHr]; intros rest.
  - apply spec_node_absent.
  - cbn [preorder_tokens app]. rewrite <- app_assoc.
    eapply spec_node_key; [apply integer_token_print_int | apply IHl | apply IHr].
Qed.

(** X16.  What [save_tree_preorder] writes is well formed: split at white
    space it is the list of the keys in preorder with [#] at every absent
    child, [2 n + 1] words for [n] nodes, and this list is a [node] of the
    format's grammar with no word left over. *)
Theorem save_well_formed t :
  int_keys t →
  tokens (save_tree_preorder t) = preorder_tokens t
  ∧ spec_node (tokens (save_tree_preorder t)) []
  ∧ length (tokens (save_tree_preorder t)) = S (2 * size t).
Proof.
  intros Hint. pose proof (tokens_save t [] Hint) as Htok.
  rewrite !app_nil_r in Htok. rewrite Htok. split_and!; [done | |].
  - pose proof (spec_node_preorder_tokens t []) as H. by rewrite app_nil_r in H.
  - clear. induction t as [|k l IHl r IHr]; [done|].
    cbn [preorder_tokens size length]. rewrite length_app, IHl, IHr. lia.
Qed.

Lemma save_well_formed_witness :
  length (tokens (save_tree_preorder scenario_tree)) = 15%nat.
Proof.
  apply (save_well_formed scenario_tree).
  apply (bool_decide_unpack _). by vm_compute.
Defined.

(** ** The menu keeps search trees *)

(** X17.  A session that starts from a search tree and in which every file
    loaded was written by [save_tree_preorder] from a search tree leaves a
    search tree after every command: the invariant survives inserts,
    deletes, a clear, a failed [fopen] and such loads, in any order. *)
Theorem menu_keeps_order root (cs : list command) :
  BST root → Forall orderly cs →
  BST (menu_run root cs)
  ∧ StronglySorted Z.lt (inorder (menu_run root cs)).
Proof.
  intros Hroot Hcs.
  assert (BST (menu_run root cs)) as H; [|by auto using BST_inorder_sorted].
  unfold menu_run. revert root Hroot.
  induction Hcs as [|c cs Hc _ IH]; intros root Hroot; [done|].
  cbn [fold_left]. apply IH.
  destruct c as [key|key|key|[fp|]|]; cbn [menu_step orderly] in *.
  - by apply BST_insert_recursive.
  - rewrite insert_iterative_recursive. by apply BST_insert_recursive.
  - by apply BST_deleteNode.
  - destruct Hc as (t & Ht & Hint & ->).
    pose proof (load_save t [] Hint) as Hload. rewrite app_nil_r in Hload.
    by rewrite Hload.
  - done.
  - done.
Qed.

Lemma menu_keeps_order_witness :
  BST (menu_run NULL
         [CmdInsertRecursive 5; CmdLoad (Some (save_tree_preorder scenario_tree));
          CmdDelete 50; CmdLoad None; CmdInsertIterative 55]).
Proof.
  apply (menu_keeps_order NULL); [done|].
  repeat constructor.
  exists scenario_tree. split_and!; [exact scenario_tree_BST | | done].
  apply (bool_decide_unpack _). by vm_compute.
Defined.

(** ** The height under updates *)

Lemma spec_height_insert_recursive t key :
  spec_height t ≤ spec_height (insert_recursive t key) ≤ spec_height t + 1.
Proof.
  induction t as [|k l IHl r IHr]; [cbn; lia|].
  cbn [insert_recursive]. repeat case_decide; cbn [spec_height]; lia.
Qed.

Lemma spec_height_deleteNode t key :
  spec_height (deleteNode t key) ≤ spec_height t.
Proof.
  revert key. induction t as [|k l IHl r IHr]; intros key; [done|].
  pose proof (spec_statistics_bounds l) as [[? _] _].
  pose proof (spec_statistics_bounds r) as [[? _] _].
  destruct (Z.lt_total key k) as [Hlt | [-> | Hgt]].
  - cbn [deleteNode]. compare_keys. cbn [spec_height].
    specialize (IHl key). lia.
  - destruct (decide (l = NULL)) as [->|Hln].
    { rewrite deleteNode_eq_left_absent. cbn [spec_height]. lia. }
    destruct (decide (r = NULL)) as [->|Hrn].
    { rewrite deleteNode_eq_right_absent. cbn [spec_height]. lia. }
    destruct (minValueNode_shape r Hrn) as (m & mr & Hmin).
    rewrite (deleteNode_eq_two_children _ _ _ _ _ _ Hln Hrn Hmin).
    cbn [spec_height]. specialize (IHr m). lia.
  - cbn [deleteNode]. compare_keys. cbn [spec_height].
    specialize (IHr key). lia.
Qed.

(** X18.  As long as the number of nodes stays below [INT_MAX], an insert
    raises the height by at most one and never lowers it, and a delete never
    raises it. *)
Theorem height_after_update t key :
  Z.of_nat (size t) < INT_MAX →
  height t ≤ height (insert_recursive t key) ≤ height t + 1
  ∧ height (insert_iterative t key) = height (insert_recursive t key)
  ∧ height (deleteNode t key) ≤ height t.
Proof.
  rewrite <- spec_count_size. intros Hfit. rewrite insert_iterative_recursive.
  pose proof (spec_count_insert_recursive t key) as Hi.
  assert (spec_count (deleteNode t key) ≤ spec_count t) as Hd.
  { clear. revert key. induction t as [|k l IHl r IHr]; intros key; [done|].
    pose proof (spec_statistics_bounds l) as [_ [_ ?]].
    pose proof (spec_statistics_bounds r) as [_ [_ ?]].
    pose proof (spec_statistics_bounds (Node k l r)) as [_ [? _]].
    destruct (Z.lt_total key k) as [Hlt | [-> | Hgt]].
    - cbn [deleteNode]. compare_keys. cbn [spec_count]. specialize (IHl key). lia.
    - destruct (decide (l = NULL)) as [->|Hln].
      { rewrite deleteNode_eq_left_absent. cbn [spec_count]. lia. }
      destruct (decide (r = NULL)) as [->|Hrn].
      { rewrite deleteNode_eq_right_absent. cbn [spec_count]. lia. }
      destruct (minValueNode_shape r Hrn) as (m & mr & Hmin).
      rewrite (deleteNode_eq_two_children _ _ _ _ _ _ Hln Hrn Hmin).
      cbn [spec_count]. specialize (IHr m). lia.
    - cbn [deleteNode]. compare_keys. cbn [spec_count]. specialize (IHr key). lia. }
  destruct (statistics_refine t) as (-> & _); [lia|].
  destruct (statistics_refine (insert_recursive t key)) as (-> & _).
  { rewrite Hi. case_decide; lia. }
  destruct (statistics_refine (deleteNode t key)) as (-> & _); [lia|].
  split_and!; [apply spec_height_insert_recursive.. | done |
               apply spec_height_deleteNode].
Qed.

Lemma height_after_update_witness :
  height (deleteNode scenario_tree 50) ≤ height scenario_tree.
Proof.
  apply (height_after_update scenario_tree 50). clear. by vm_compute.
Defined.

(** ** The worst case: keys inserted in ascending order *)

Lemma insert_right_spine (ks : list Z) k :
  (∀ x, x ∈ ks → x < k) →
  insert_recursive (right_spine ks) k = right_spine (ks ++ [k]).
Proof.
  induction ks as [|a ks IH]; intros Hlt; [done|].
  assert (a < k) by (apply Hlt; left).
  cbn [right_spine app insert_recursive]. compare_keys.
  rewrite IH; [done|]. intros x Hx. apply Hlt. by right.
Qed.

Lemma fold_insert_ascending (pre ks : list Z) :
  StronglySorted Z.lt (pre ++ ks) →
  fold_left insert_recursive ks (right_spine pre) = right_spine (pre ++ ks).
Proof.
  revert pre. induction ks as [|k ks IH]; intros pre Hs.
  - by rewrite app_nil_r.
  - cbn [fold_left]. rewrite insert_right_spine.
    + rewrite IH; rewrite <- app_assoc; done.
    + apply StronglySorted_app in Hs as (H12 & _ & _).
      intros x Hx. apply (H12 x k Hx). by left.
Qed.

Lemma right_spine_statistics (ks : list Z) :
  spec_height (right_spine ks) = Z.of_nat (length ks)
  ∧ spec_count (right_spine ks) = Z.of_nat (length ks)
  ∧ inorder (right_spine ks) = ks.
Proof.
  induction ks as [|k ks (IH1 & IH2 & IH3)]; [done|].
  cbn [right_spine spec_height spec_count inorder length app].
  rewrite IH1, IH2, IH3. split_and!; [lia | lia | done].
Qed.

(** X19.  Keys inserted in strictly ascending order, by either insert, give a
    tree without any left child: the height equals the number of nodes, the
    worst case of a tree that is never rebalanced. *)
Theorem ascending_inserts_degenerate (ks : list Z) :
  StronglySorted Z.lt ks → Z.of_nat (length ks) ≤ INT_MAX →
  fold_left insert_recursive ks NULL = right_spine ks
  ∧ fold_left insert_iterative ks NULL = right_spine ks
  ∧ height (right_spine ks) = Z.of_nat (length ks)
  ∧ count_nodes (right_spine ks) = Z.of_nat (length ks)
  ∧ count_leaves (right_spine ks) = (if decide (ks = []) then 0 else 1).
Proof.
  intros Hs Hfit.
  pose proof (fold_insert_ascending [] ks Hs) as Hrec. cbn in Hrec.
  destruct (right_spine_statistics ks) as (Hh & Hc & _).
  destruct (statistics_refine (right_spine ks)) as (Hh' & Hc' & Hl'); [lia|].
  split_and!; try congruence.
  - rewrite <- Hrec. clear. generalize NULL.
    induction ks as [|k ks IH]; intros t; [done|].
    cbn [fold_left]. by rewrite insert_iterative_recursive, IH.
  - rewrite Hl'. clear. induction ks as [|k ks IH]; [done|].
    rewrite decide_False by done. destruct ks as [|k' ks]; [done|].
    rewrite decide_False in IH by done.
    change (spec_leafCount (right_spine (k :: k' :: ks)))
      with (spec_leafCount NULL + spec_leafCount (right_spine (k' :: ks))).
    rewrite IH. done.
Qed.

Lemma ascending_inserts_degenerate_witness :
  fold_left insert_recursive [1; 2; 3; 4] NULL
  = Node 1 NULL (Node 2 NULL (Node 3 NULL (Node 4 NULL NULL)))
  ∧ height (right_spine [1; 2; 3; 4]) = 4.
Proof.
  destruct (ascending_inserts_degenerate [1; 2; 3; 4]) as (H1 & _ & H2 & _).
  - repeat constructor.
  - clear. by vm_compute.
  - exact (conj H1 H2).
Defined.

(** ** Updates touch one place of the tree *)

(** X20.  An insert of a key that the search does not find puts one new leaf
    where the search ended and changes nothing else: the result is the old
    tree with one absent child replaced by the new node, and its in-order
    sequence is the old one with the key put in at one place.  This holds on
    every tree. *)
Theorem insert_adds_leaf t key :
  search_recursive t key = NULL →
  ∃ p l1 l2,
    deref t p = NULL
    ∧ insert_recursive t key = store_at t p (λ _, newNode key)
    ∧ insert_iterative t key = store_at t p (λ _, newNode key)
    ∧ inorder t = l1 ++ l2
    ∧ inorder (insert_recursive t key) = l1 ++ key :: l2.
Proof.
  intros Hs. rewrite insert_iterative_recursive.
  assert (∃ p l1 l2,
    deref t p = NULL
    ∧ insert_recursive t key = store_at t p (λ _, newNode key)
    ∧ inorder t = l1 ++ l2
    ∧ inorder (insert_recursive t key) = l1 ++ key :: l2) as H.
  { induction t as [|k l IHl r IHr].
    - by exists [], [], [].
    - cbn [search_recursive] in Hs. destruct (decide (k = key)); [done|].
      cbn [insert_recursive]. destruct (decide (key < k)).
      + destruct (IHl Hs) as (p & l1 & l2 & Hp & Hi & Ho & Hn).
        exists (GoLeft :: p), l1, (l2 ++ k :: inorder r).
        cbn [deref store_at inorder]. rewrite Hn, Ho, <- !app_assoc.
        by rewrite Hi.
      + rewrite decide_True by lia.
        destruct (IHr Hs) as (p & l1 & l2 & Hp & Hi & Ho & Hn).
        exists (GoRight :: p), (inorder l ++ k :: l1), l2.
        cbn [deref store_at inorder]. rewrite Hn, Ho, <- !app_assoc.
        by rewrite Hi. }
  destruct H as (p & l1 & l2 & ? & ? & ? & ?). by exists p, l1, l2.
Qed.

Lemma insert_adds_leaf_witness :
  ∃ p l1 l2,
    deref scenario_tree p = NULL
    ∧ insert_recursive scenario_tree 65 = store_at scenario_tree p (λ _, newNode 65)
    ∧ insert_iterative scenario_tree 65 = store_at scenario_tree p (λ _, newNode 65)
    ∧ inorder scenario_tree = l1 ++ l2
    ∧ inorder (insert_recursive scenario_tree 65) = l1 ++ 65 :: l2.
Proof. apply (insert_adds_leaf scenario_tree 65). by vm_compute. Defined.

(** X21.  When the node that the search finds for [key] lacks a child,
    [deleteNode] takes exactly that node out and puts its other child, or
    nothing, in its place; the rest of the tree stays as it is and a single
    branch of the code does it.  This holds on every tree. *)
Theorem delete_splices t key l r :
  search_recursive t key = Node key l r → l = NULL ∨ r = NULL →
  ∃ p,
    deref t p = Node key l r
    ∧ deleteNode t key = store_at t p (λ _, match l with NULL => r | _ => l end)
    ∧ deleteNode_cases t key
      = [match l with NULL => LeftAbsent | _ => RightAbsent end].
Proof.
  intros Hs Hchild. induction t as [|k tl IHl tr IHr]; [done|].
  cbn [search_recursive] in Hs. destruct (decide (k = key)) as [->|Hne].
  - injection Hs as -> ->. exists []. cbn [deref store_at].
    split; [done|]. cbn [deleteNode deleteNode_cases]. compare_keys.
    destruct l as [|lk ll lr]; [done|]. by destruct Hchild as [ | -> ].
  - destruct (decide (key < k)).
    + destruct (IHl Hs) as (p & Hp & Hd & Hc). exists (GoLeft :: p).
      cbn [deref store_at deleteNode deleteNode_cases]. compare_keys.
      by rewrite Hd.
    + destruct (IHr Hs) as (p & Hp & Hd & Hc). exists (GoRight :: p).
      cbn [deref store_at deleteNode deleteNode_cases]. compare_keys.
      by rewrite Hd.
Qed.

Lemma delete_splices_witness :
  ∃ p,
    deref scenario_tree p = Node 20 NULL NULL
    ∧ deleteNode scenario_tree 20 = store_at scenario_tree p (λ _, NULL)
    ∧ deleteNode_cases scenario_tree 20 = [LeftAbsent].
Proof.
  apply (delete_splices scenario_tree 20 NULL NULL); [by vm_compute | by left].
Defined.

(** ** The in-order sequence as a test of the invariant *)

(** X22.  A tree is a search tree exactly when [inorder] prints its keys in
    strictly ascending order: the in-order output detects every violation of
    the invariant. *)
Theorem BST_iff_inorder_sorted t :
  BST t ↔ StronglySorted Z.lt (inorder t).
Proof.
  split; [apply BST_inorder_sorted|].
  induction t as [|k l IHl r IHr]; [done|]. cbn [inorder].
  intros (H12 & Hl & Hr)%StronglySorted_app.
  apply StronglySorted_inv in Hr as [Hr Hall]. rewrite Forall_forall in Hall.
  apply BST_node. split_and!; [| |by apply IHl|by apply IHr].
  - intros x Hx%elem_of_inorder. apply (H12 x k Hx). by left.
  - intros x Hx%elem_of_inorder. by apply Hall.
Qed.

(** ** Neighbours do not depend on the presence of the query *)

Lemma greatest_below_unique (S : gset Z) key o1 o2 :
  greatest_below S key o1 → greatest_below S key o2 → o1 = o2.
Proof.
  destruct o1 as [p1|], o2 as [p2|]; cbn; try done.
  - intros (H1 & Hl1 & Hm1) (H2 & Hl2 & Hm2).
    specialize (Hm1 p2 H2 Hl2). specialize (Hm2 p1 H1 Hl1). f_equal. lia.
  - intros (H1 & Hl1 & _) Hnone. by destruct (Hnone p1 H1).
  - intros Hnone (H2 & Hl2 & _). by destruct (Hnone p2 H2).
Qed.

Lemma least_above_unique (S : gset Z) key o1 o2 :
  least_above S key o1 → least_above S key o2 → o1 = o2.
Proof.
  destruct o1 as [p1|], o2 as [p2|]; cbn; try done.
  - intros (H1 & Hl1 & Hm1) (H2 & Hl2 & Hm2).
    specialize (Hm1 p2 H2 Hl2). specialize (Hm2 p1 H1 Hl1). f_equal. lia.
  - intros (H1 & Hl1 & _) Hnone. by destruct (Hnone p1 H1).
  - intros Hnone (H2 & Hl2 & _). by destruct (Hnone p2 H2).
Qed.

Lemma greatest_below_same_others (S S' : gset Z) key o :
  (∀ x, x ≠ key → (x ∈ S ↔ x ∈ S')) →
  greatest_below S key o → greatest_below S' key o.
Proof.
  intros Hsame. destruct o as [p|]; cbn.
  - intros (Hp & Hlt & Hmax). split_and!; [apply Hsame; [lia|done] | done |].
    intros x Hx Hxk. apply Hmax; [|done]. apply Hsame; [lia|done].
  - intros Hnone x Hx Hxk. apply (Hnone x); [|done]. apply Hsame; [lia|done].
Qed.

Lemma least_above_same_others (S S' : gset Z) key o :
  (∀ x, x ≠ key → (x ∈ S ↔ x ∈ S')) →
  least_above S key o → least_above S' key o.
Proof.
  intros Hsame. destruct o as [p|]; cbn.
  - intros (Hp & Hlt & Hmin). split_and!; [apply Hsame; [lia|done] | done |].
    intros x Hx Hxk. apply Hmin; [|done]. apply Hsame; [lia|done].
  - intros Hnone x Hx Hxk. apply (Hnone x); [|done]. apply Hsame; [lia|done].
Qed.

Lemma neighbours_same_others t t' key :
  BST t → BST t' → (∀ x, x ≠ key → (x ∈ keys t ↔ x ∈ keys t')) →
  node_key (predecessor t' key) = node_key (predecessor t key)
  ∧ node_key (successor t' key) = node_key (successor t key).
Proof.
  intros Ht Ht' Hsame. rewrite !predecessor_key, !successor_key by done.
  split.
  - apply (greatest_below_unique (keys t') key);
      [by apply list_predecessor_greatest|].
    apply (greatest_below_same_others (keys t)); [done|].
    by apply list_predecessor_greatest.
  - apply (least_above_unique (keys t') key);
      [by apply list_successor_least|].
    apply (least_above_same_others (keys t)); [done|].
    by apply list_successor_least.
Qed.

(** X23.  On a search tree the answers of [predecessor] and [successor] for
    a key are the same whether that key is in the tree or not: inserting the
    query key, or deleting it, changes neither of its neighbours. *)
Theorem neighbours_ignore_presence t key :
  BST t →
  node_key (predecessor (insert_recursive t key) key) = node_key (predecessor t key)
  ∧ node_key (successor (insert_recursive t key) key) = node_key (successor t key)
  ∧ node_key (predecessor (deleteNode t key) key) = node_key (predecessor t key)
  ∧ node_key (successor (deleteNode t key) key) = node_key (successor t key).
Proof.
  intros Ht.
  destruct (neighbours_same_others t (insert_recursive t key) key) as [H1 H2];
    [done | by apply BST_insert_recursive | |].
  { intros x Hx. rewrite keys_insert_recursive. set_solver. }
  destruct (neighbours_same_others t (deleteNode t key) key) as [H3 H4];
    [done | by apply BST_deleteNode | |].
  { intros x Hx. rewrite keys_deleteNode by done. set_solver. }
  done.
Qed.

Lemma neighbours_ignore_presence_witness :
  node_key (predecessor (deleteNode scenario_tree 50) 50)
  = node_key (predecessor scenario_tree 50).
Proof. apply (neighbours_ignore_presence scenario_tree 50 scenario_tree_BST). Defined.
